(** * The CSV story decoder of [src/utils/csvParser.ts]

    A shallow embedding of [parseCsvRow] and [parseCSV] together with the
    properties of the decoder that the specification states.

    Conventions of the embedding:
    - a JavaScript string is the list of its UTF-16 code units, each a
      number in [N];
    - the object literal built per row is a finite map from property names
      to primitive values;
    - a [TypeError] raised by a method call on a non-string is [None] in the
      option monad; the decoder is proved never to take that path;
    - a [number] is the mathematical integer [parseInt] denotes (the
      rounding of integers beyond 2^53 to doubles is not modelled). *)

From Stdlib Require Import NArith ZArith Lia List Decimal DecimalNat Ascii String.
From stdpp Require Import base option list gmap.
Import ListNotations.

Local Open Scope N_scope.
Local Open Scope list_scope.

(** ** Strings *)

Abbreviation jsstring := (list N).

(** An ASCII literal as a JavaScript string. *)
Definition str (s : string) : jsstring :=
  map N_of_ascii (list_ascii_of_string s).

Definition QUOTE : N := 34.
Definition COMMA : N := 44.
Definition LF : N := 10.
Definition CR : N := 13.
Definition MINUS : N := 45.
Definition PLUS : N := 43.

(** [WhiteSpace] and [LineTerminator] of ECMAScript, the characters that
    [String.prototype.trim] and [parseInt] strip. *)
Definition isWhiteSpace (c : N) : bool :=
  (c =? 9) || (c =? 10) || (c =? 11) || (c =? 12) || (c =? 13) || (c =? 32)
  || (c =? 160) || (c =? 5760) || ((8192 <=? c) && (c <=? 8202))
  || (c =? 8232) || (c =? 8233) || (c =? 8239) || (c =? 8287)
  || (c =? 12288) || (c =? 65279).

Fixpoint trimStart (s : jsstring) : jsstring :=
  match s with
  | [] => []
  | c :: rest => if isWhiteSpace c then trimStart rest else s
  end.

Definition trimEnd (s : jsstring) : jsstring := reverse (trimStart (reverse s)).

(** [s.trim()] *)
Definition trim (s : jsstring) : jsstring := trimEnd (trimStart s).

(** A string is truthy when it is not empty. *)
Definition nonEmpty (s : jsstring) : bool :=
  match s with [] => false | _ :: _ => true end.

(** [data.replace(/\r\n/g, '\n')] *)
Fixpoint replaceCRLF (s : jsstring) : jsstring :=
  match s with
  | [] => []
  | c :: rest =>
      match rest with
      | c' :: rest' =>
          if (c =? CR) && (c' =? LF) then LF :: replaceCRLF rest'
          else c :: replaceCRLF rest
      | [] => [c]
      end
  end.

(** [s.toLowerCase()]. The decoder only compares the result with ['true'];
    outside [A-Z] no code unit lowercases to one of [t], [r], [u], [e], so the
    mapping is the identity there without changing that comparison. *)
Definition lowerChar (c : N) : N :=
  if (65 <=? c) && (c <=? 90) then c + 32 else c.

Definition toLowerCase (s : jsstring) : jsstring := lowerChar <$> s.

Definition jsstring_eqb (a b : jsstring) : bool := bool_decide (a = b).

(** ** Field splitter: [parseCsvRow] *)

Record FieldState := mkFieldState {
  fields : list jsstring;
  currentField : jsstring;
  fInQuotes : bool
}.

Definition fieldInit : FieldState := mkFieldState [] [] false.

(** One iteration of the loop body at [char = row[i]], with [next] the
    character at [i + 1] when [i < row.length - 1]. The boolean is [true]
    when the body executes [i++] and so skips the next character. *)
Definition fieldStep (st : FieldState) (char : N) (next : option N)
  : FieldState * bool :=
  if fInQuotes st then
    if char =? QUOTE then
      match next with
      | Some c' =>
          if c' =? QUOTE
          then (mkFieldState (fields st) (currentField st ++ [QUOTE]) true, true)
          else (mkFieldState (fields st) (currentField st) false, false)
      | None => (mkFieldState (fields st) (currentField st) false, false)
      end
    else (mkFieldState (fields st) (currentField st ++ [char]) true, false)
  else
    if char =? QUOTE then
      (mkFieldState (fields st) (currentField st) true, false)
    else if char =? COMMA then
      (mkFieldState (fields st ++ [currentField st]) [] false, false)
    else (mkFieldState (fields st) (currentField st ++ [char]) false, false).

Fixpoint fieldLoop (row : jsstring) (st : FieldState) : FieldState :=
  match row with
  | [] => st
  | char :: rest =>
      let '(st', skip) := fieldStep st char (head rest) in
      if skip then
        match rest with
        | _ :: rest' => fieldLoop rest' st'
        | [] => st'
        end
      else fieldLoop rest st'
  end.

Definition parseCsvRow (row : jsstring) : list jsstring :=
  let st := fieldLoop row fieldInit in
  fields st ++ [currentField st].

(** ** Row splitter: the first loop of [parseCSV] *)

Record RowState := mkRowState {
  rows : list jsstring;
  currentRow : jsstring;
  rInQuotes : bool
}.

Definition rowInit : RowState := mkRowState [] [] false.

(** [if (currentRow.trim()) rows.push(currentRow)] *)
Definition pushRow (rs : list jsstring) (row : jsstring) : list jsstring :=
  if nonEmpty (trim row) then rs ++ [row] else rs.

Definition rowStep (st : RowState) (char : N) : RowState :=
  let inQuotes := if char =? QUOTE then negb (rInQuotes st) else rInQuotes st in
  if (char =? LF) && negb inQuotes
  then mkRowState (pushRow (rows st) (currentRow st)) [] inQuotes
  else mkRowState (rows st) (currentRow st ++ [char]) inQuotes.

Definition rowLoop (data : jsstring) (st : RowState) : RowState :=
  fold_left rowStep data st.

(** The rows of the normalised data, the last one pushed after the loop. *)
Definition splitRows (normalizedData : jsstring) : list jsstring :=
  let st := rowLoop normalizedData rowInit in
  pushRow (rows st) (currentRow st).

Definition normalize (data : jsstring) : jsstring := trim (replaceCRLF data).

(** ** Values and objects *)

Inductive value :=
  | VStr (s : jsstring)
  | VNum (n : Z)
  | VBool (b : bool).

(** [storyObject]: own properties by name; a missing name reads as
    [undefined]. *)
Abbreviation jsobject := (gmap (list N) value).

Fixpoint uintChars (d : uint) : jsstring :=
  match d with
  | Nil => []
  | D0 d => 48 :: uintChars d
  | D1 d => 49 :: uintChars d
  | D2 d => 50 :: uintChars d
  | D3 d => 51 :: uintChars d
  | D4 d => 52 :: uintChars d
  | D5 d => 53 :: uintChars d
  | D6 d => 54 :: uintChars d
  | D7 d => 55 :: uintChars d
  | D8 d => 56 :: uintChars d
  | D9 d => 57 :: uintChars d
  end.

(** The decimal digits of an array index. *)
Definition natToString (n : nat) : jsstring := uintChars (Nat.to_uint n).

Definition intToString (z : Z) : jsstring :=
  match Z.to_int z with
  | Pos d => uintChars d
  | Neg d => MINUS :: uintChars d
  end.

(** [ToString] on a primitive. *)
Definition toStr (v : value) : jsstring :=
  match v with
  | VStr s => s
  | VNum n => intToString n
  | VBool true => str "true"
  | VBool false => str "false"
  end.

Definition truthy (v : value) : bool :=
  match v with
  | VStr s => nonEmpty s
  | VNum n => negb (n =? 0)%Z
  | VBool b => b
  end.

(** A property read inside a template literal. *)
Definition template (o : option value) : jsstring :=
  match o with
  | Some v => toStr v
  | None => str "undefined"
  end.

(** [obj[key] = v] for a primitive [v]: the [__proto__] setter inherited from
    [Object.prototype] ignores primitives, every other name becomes an own
    property. *)
Definition setProp (obj : jsobject) (key : jsstring) (v : value) : jsobject :=
  if jsstring_eqb key (str "__proto__") then obj else <[key := v]> obj.

(** ** [parseInt(s, 10)] *)

Definition isDigit (c : N) : bool := (48 <=? c) && (c <=? 57).

(** The value of the longest prefix of decimal digits; [acc] is [None]
    until a digit has been read. *)
Fixpoint digitsValue (s : jsstring) (acc : option Z) : option Z :=
  match s with
  | [] => acc
  | c :: rest =>
      if isDigit c
      then digitsValue rest (Some (10 * default 0 acc + Z.of_N (c - 48)))%Z
      else acc
  end.

(** [None] is [NaN]. *)
Definition parseInt (s : jsstring) : option Z :=
  let s := trimStart s in
  match s with
  | c :: rest =>
      if c =? MINUS then (fun n => - n)%Z <$> digitsValue rest None
      else if c =? PLUS then digitsValue rest None
      else digitsValue s None
  | [] => None
  end.

(** [n || 0] on a number: [NaN] and [0] are falsy. *)
Definition orZero (n : option Z) : Z := default 0%Z n.

(** ** Record builder *)

(** [values[i] || ''] *)
Definition orEmpty (o : option jsstring) : jsstring :=
  match o with
  | Some v => if nonEmpty v then v else []
  | None => []
  end.

(** [key === 'score' || key === 'num_comments'] *)
Definition numericKey (key : jsstring) : bool :=
  jsstring_eqb key (str "score") || jsstring_eqb key (str "num_comments").

(** [key === 'is_self' || key === 'over_18'] *)
Definition flagKey (key : jsstring) : bool :=
  jsstring_eqb key (str "is_self") || jsstring_eqb key (str "over_18").

(** The body of the [forEach] callback after [value] is read: the two
    conditionals in sequence. *)
Definition coerce (key : jsstring) (value0 : value) : option value :=
  let value1 :=
    if numericKey key
    then VNum (orZero (parseInt (toStr value0)))
    else value0 in
  if flagKey key
  then match value1 with
       | VStr s => Some (VBool (jsstring_eqb (toLowerCase s) (str "true")))
       | _ => None
       end
  else Some value1.

(** [headers.forEach((header, i) => ...)], started at index [i]. *)
Fixpoint assignFields (headers : list jsstring) (i : nat)
    (values : list jsstring) (obj : jsobject) : option jsobject :=
  match headers with
  | [] => Some obj
  | header :: rest =>
      v ← coerce header (VStr (orEmpty (values !! i)));
      assignFields rest (S i) values (setProp obj header v)
  end.

(** [while (values.length < headerCount) values.push('')], run for the [n]
    iterations that the guard allows. *)
Fixpoint padLoop (n : nat) (values : list jsstring) : list jsstring :=
  match n with
  | O => values
  | S k => padLoop k (values ++ [[]])
  end.

Definition padValues (headerCount : nat) (values : list jsstring)
  : list jsstring :=
  padLoop (headerCount - length values) values.

(** The character class [a-zA-Z0-9-_]. *)
Definition idChar (c : N) : bool :=
  ((97 <=? c) && (c <=? 122)) || ((65 <=? c) && (c <=? 90))
  || ((48 <=? c) && (c <=? 57)) || (c =? 45) || (c =? 95).

(** [id.replace(/[^a-zA-Z0-9-_]/g, '')] *)
Definition sanitize (id : jsstring) : jsstring := filter (fun c => idChar c = true) id.

(** [storyObject.author || 'story'] inside the template literal. *)
Definition authorOrStory (obj : jsobject) : jsstring :=
  match obj !! str "author" with
  | Some v => if truthy v then toStr v else str "story"
  | None => str "story"
  end.

(** The values of one data row, split and padded. *)
Definition rowValues (headerCount : nat) (rowStr : jsstring) : list jsstring :=
  padValues headerCount (parseCsvRow (trim rowStr)).

(** The callback of [rows.slice(1).map]. *)
Definition buildStory (headers : list jsstring) (rowStr : jsstring)
    (index : nat) : option jsobject :=
  let values := rowValues (length headers) rowStr in
  obj ← assignFields headers 0 values ∅;
  let id := authorOrStory obj ++ [MINUS] ++ natToString index in
  let obj := setProp obj (str "id") (VStr (sanitize id)) in
  let obj := setProp obj (str "status") (VStr (str "idle")) in
  let obj := setProp obj (str "isSelected") (VBool false) in
  let obj := setProp obj (str "audioFileName")
               (VStr (template (obj !! str "id") ++ str "_story.wav")) in
  let obj := setProp obj (str "coverAudioFileName")
               (VStr (template (obj !! str "id") ++ str "_cover.wav")) in
  Some obj.

(** The predicate of [filter]:
    [story.rewritten_story && story.rewritten_story.trim().length > 1]. *)
Definition keepStory (story : jsobject) : option bool :=
  match story !! str "rewritten_story" with
  | None => Some false
  | Some v =>
      if truthy v then
        match v with
        | VStr s => Some (1 <? length (trim s))%nat
        | _ => None
        end
      else Some false
  end.

Fixpoint filterStories (l : list jsobject) : option (list jsobject) :=
  match l with
  | [] => Some []
  | story :: rest =>
      keep ← keepStory story;
      kept ← filterStories rest;
      Some (if keep : bool then story :: kept else kept)
  end.

(** The records built from the data rows, before the filter. *)
Definition buildStories (rows : list jsstring) : option (list jsobject) :=
  let headers := trim <$> parseCsvRow (default [] (rows !! 0%nat)) in
  mapM id (imap (fun index rowStr => buildStory headers rowStr index)
                (drop 1 rows)).

Definition parseCSV (data : jsstring) : option (list jsobject) :=
  let rows := splitRows (normalize data) in
  if (length rows <? 2)%nat then Some []
  else stories ← buildStories rows; filterStories stories.

(** ** Definitions used to state the properties *)

(** What [coerce] stores for a string read from the row. *)
Definition coerced (key : jsstring) (s : jsstring) : value :=
  if numericKey key then VNum (orZero (parseInt s))
  else if flagKey key then VBool (jsstring_eqb (toLowerCase s) (str "true"))
  else VStr s.

(** The object after the [forEach], as a function. *)
Fixpoint assigned (headers : list jsstring) (i : nat)
    (values : list jsstring) (obj : jsobject) : jsobject :=
  match headers with
  | [] => obj
  | header :: rest =>
      assigned rest (S i) values
        (setProp obj header (coerced header (orEmpty (values !! i))))
  end.

(** The derived properties written after the [forEach]. *)
Definition derived (obj : jsobject) (index : nat) : jsobject :=
  let id := sanitize (authorOrStory obj ++ [MINUS] ++ natToString index) in
  <[str "coverAudioFileName" := VStr (id ++ str "_cover.wav")]>
    (<[str "audioFileName" := VStr (id ++ str "_story.wav")]>
       (<[str "isSelected" := VBool false]>
          (<[str "status" := VStr (str "idle")]>
             (<[str "id" := VStr id]> obj)))).

(** Properties of a record that the five derived names do not touch. *)
Definition derivedKey (key : jsstring) : bool :=
  jsstring_eqb key (str "id") || jsstring_eqb key (str "status")
  || jsstring_eqb key (str "isSelected") || jsstring_eqb key (str "audioFileName")
  || jsstring_eqb key (str "coverAudioFileName").

(** Every property holds what [coerce] makes of some string. *)
Definition typed (obj : jsobject) : Prop :=
  ∀ key v, obj !! key = Some v → ∃ s, v = coerced key s.

Definition headersOf (rows : list jsstring) : list jsstring :=
  trim <$> parseCsvRow (default [] (rows !! 0%nat)).

(** The record of the data row [rowStr] at position [index]. *)
Definition storyOf (headers : list jsstring) (index : nat) (rowStr : jsstring)
  : jsobject :=
  derived (assigned headers 0 (rowValues (length headers) rowStr) ∅) index.

(** The records of all data rows, before the filter. *)
Definition built (rows : list jsstring) : list jsobject :=
  imap (storyOf (headersOf rows)) (drop 1 rows).

(** The body-text condition in the words of the specification: the field is
    present and, trimmed, longer than one character. *)
Definition bodyLongerThanOne (story : jsobject) : Prop :=
  ∃ s, story !! str "rewritten_story" = Some (VStr s) ∧ (1 < length (trim s))%nat.

#[global] Instance bodyLongerThanOne_dec story : Decision (bodyLongerThanOne story).
Proof.
  unfold bodyLongerThanOne.
  destruct (story !! str "rewritten_story") as [[s|n|b]|] eqn:Hs.
  - destruct (decide (1 < length (trim s))%nat) as [Hlt|Hge].
    + left. by exists s.
    + right. intros (s' & [= <-] & Hlt). done.
  - right. intros (s' & [=] & _).
  - right. intros (s' & [=] & _).
  - right. intros (s' & [=] & _).
Defined.

(** The default of each kind of field. *)
Definition defaultValue (key : jsstring) : value :=
  if numericKey key then VNum 0
  else if flagKey key then VBool false
  else VStr [].

Definition rowsOf (st : RowState) : list jsstring :=
  pushRow (rows st) (currentRow st).

Definition idOf (story : jsobject) : option value := story !! str "id".

(** [rows.join(sep)] *)
Fixpoint join (sep : N) (l : list jsstring) : jsstring :=
  match l with
  | [] => []
  | x :: rest =>
      match rest with
      | [] => x
      | _ :: _ => x ++ sep :: join sep rest
      end
  end.

(** The logical rows in the words of the specification: the text is cut at
    every newline met while the quoted-span flag, toggled at every quote
    character, is off; no row is dropped. [inQuotes] is the flag on entry. *)
Fixpoint logicalRows (s : jsstring) (inQuotes : bool) : list jsstring :=
  match s with
  | [] => [[]]
  | c :: rest =>
      let inQuotes' := if c =? QUOTE then negb inQuotes else inQuotes in
      if (c =? LF) && negb inQuotes' then [] :: logicalRows rest inQuotes'
      else match logicalRows rest inQuotes' with
           | row :: others => (c :: row) :: others
           | [] => [[c]]
           end
  end.

Definition nonBlank (row : jsstring) : Prop := nonEmpty (trim row) = true.

#[global] Instance nonBlank_dec row : Decision (nonBlank row).
Proof. unfold nonBlank. apply _. Defined.

(** A field written without quoting: no quote and no delimiter in it. *)
Definition plainField (f : jsstring) : Prop := (QUOTE ∉ f) ∧ (COMMA ∉ f).

(** The quoting rule of the input format: the field wrapped in double
    quotes, each quote character of the field doubled. *)
Definition escapeQuotes (body : jsstring) : jsstring :=
  body ≫= (λ c, if c =? QUOTE then [QUOTE; QUOTE] else [c]).

Definition quoteField (body : jsstring) : jsstring :=
  QUOTE :: escapeQuotes body ++ [QUOTE].

(** What the splitter returns from a state, as one list. *)
Definition fieldsOf (st : FieldState) : list jsstring :=
  fields st ++ [currentField st].

(** A plain field that stays on one line. *)
Definition lineField (f : jsstring) : Prop := plainField f ∧ (LF ∉ f).

(** ** Well-formed rows *)

(** A field as the input format writes it: plain, or wrapped in quotes. *)
Inductive cell :=
  | Plain (f : jsstring)
  | Quoted (body : jsstring).

Definition encodeCell (c : cell) : jsstring :=
  match c with
  | Plain f => f
  | Quoted body => quoteField body
  end.

(** The field value a cell stands for. *)
Definition cellValue (c : cell) : jsstring :=
  match c with
  | Plain f => f
  | Quoted body => body
  end.

(** A plain cell holds a plain field; a quoted cell holds any text. *)
Definition plainCell (c : cell) : Prop :=
  match c with
  | Plain f => plainField f
  | Quoted _ => True
  end.

(** A plain cell moreover stays on one line. *)
Definition lineCell (c : cell) : Prop :=
  match c with
  | Plain f => lineField f
  | Quoted _ => True
  end.

Definition encodeRow (cells : list cell) : jsstring :=
  join COMMA (encodeCell <$> cells).



(** What trimming a row does to its cells: the first loses its leading
    whitespace and the last its trailing whitespace when they are plain. *)
Definition trimCellStart (c : cell) : cell :=
  match c with
  | Plain f => Plain (trimStart f)
  | Quoted body => Quoted body
  end.

Definition trimCellEnd (c : cell) : cell :=
  match c with
  | Plain f => Plain (trimEnd f)
  | Quoted body => Quoted body
  end.

Definition trimFirst (cells : list cell) : list cell :=
  match cells with
  | [] => []
  | c :: rest => trimCellStart c :: rest
  end.

Fixpoint trimLast (cells : list cell) : list cell :=
  match cells with
  | [] => []
  | c :: rest =>
      match rest with
      | [] => [trimCellEnd c]
      | _ :: _ => c :: trimLast rest
      end
  end.

Definition trimCells (cells : list cell) : list cell :=
  trimLast (trimFirst cells).

(** ** Sample inputs *)

Definition sampleHeader : jsstring := str "title,rewritten_story".




Definition sampleFiltered : jsstring :=
  str "title,rewritten_story" ++ [LF] ++ str "one,hello" ++ [LF] ++ str "two,x".

Definition sampleShort : jsstring := str "a,b,c" ++ [LF] ++ str "x,y".

Definition sampleAuthors : jsstring :=
  str "author,rewritten_story" ++ [LF] ++ str "bob,hello" ++ [LF]
  ++ str "bob,world".

Definition sampleBlankRow : jsstring := str "a" ++ [LF; LF] ++ str "b".

Definition samplePadded : jsstring :=
  str "rewritten_story,label" ++ [LF] ++ str "  hello,x  " ++ [LF]
  ++ str "world,y".

Definition sampleOne : jsstring :=
  str "author,rewritten_story" ++ [LF] ++ str "bob,hello".

Definition sampleCells : list cell :=
  [Plain (str " b "); Quoted (str " q "); Plain (str " x  ")].

Definition sampleDefaults : list jsstring :=
  [str "title"; str "score"; str "is_self"; str "label"].

(** ** [chunkText] of [src/services/geminiService.ts] *)

Definition SPACE : N := 32.

(** [s.length] as a number. *)
Definition len (s : jsstring) : Z := Z.of_nat (length s).

(** [s.substring(0, n)] and [s.substring(n)] for an integer [n]: a negative
    bound counts as 0 and a bound past the end as the length. *)
Definition substringTo (s : jsstring) (n : Z) : jsstring := take (Z.to_nat n) s.

Definition substringFrom (s : jsstring) (n : Z) : jsstring := drop (Z.to_nat n) s.

(** [s.lastIndexOf(c)]: the greatest index of [c] in [s], or [-1]. The scan
    is at index [i] and [found] is its answer so far. *)
Fixpoint lastIndexFrom (c : N) (s : jsstring) (i found : Z) : Z :=
  match s with
  | [] => found
  | x :: rest => lastIndexFrom c rest (i + 1) (if x =? c then i else found)
  end.

Definition lastIndexOf (c : N) (s : jsstring) : Z := lastIndexFrom c s 0 (-1).

(** The [while] loop of [chunkText]; one unit of [fuel] pays for one test of
    the loop condition, and [None] means the fuel ran out. *)
Fixpoint chunkLoop (fuel : nat) (remainingText : jsstring) (maxLength : Z)
    (chunks : list jsstring) : option (list jsstring) :=
  match fuel with
  | O => None
  | S fuel' =>
      if (0 <? len remainingText)%Z then
        if (len remainingText <=? maxLength)%Z
        then Some (chunks ++ [remainingText])
        else
          let chunk := substringTo remainingText maxLength in
          let lastSpace := lastIndexOf SPACE chunk in
          let splitIndex := if (0 <? lastSpace)%Z then lastSpace else maxLength in
          let chunk := substringTo remainingText splitIndex in
          chunkLoop fuel' (trim (substringFrom remainingText splitIndex))
            maxLength (chunks ++ [chunk])
      else Some chunks
  end.

(** [chunkText(text, maxLength)] for an integer [maxLength]. *)
Definition chunkText (fuel : nat) (text : jsstring) (maxLength : Z)
  : option (list jsstring) :=
  if negb (nonEmpty text) || (len text =? 0)%Z then Some []
  else if (len text <=? maxLength)%Z then Some [text]
  else chunkLoop fuel text maxLength [].

(** The characters of a text that are not whitespace, in order. *)
Definition inked (s : jsstring) : jsstring :=
  filter (λ c, isWhiteSpace c = false) s.

(** A word: at least one character, none of them whitespace. *)
Definition inkedWord (w : jsstring) : Prop :=
  w ≠ [] ∧ Forall (λ c, isWhiteSpace c = false) w.

#[global] Instance inkedWord_dec w : Decision (inkedWord w).
Proof. unfold inkedWord. apply _. Defined.

(** ** Definitions for further properties of the decoder *)

(** Fields each followed by the delimiter. *)
Definition delimited (fs : list jsstring) : jsstring :=
  fs ≫= (λ f, f ++ [COMMA]).

(** The number of delimiters in a row. *)
Definition commas (row : jsstring) : nat :=
  length (filter (λ c, c = COMMA) row).

(** The kinds of value a record holds. *)
Inductive kind := KString | KNumber | KBoolean.

Definition valueKind (v : value) : kind :=
  match v with
  | VStr _ => KString
  | VNum _ => KNumber
  | VBool _ => KBoolean
  end.

(** The kind of value stored under a property name: the derived properties
    first, then the numeric and the flag columns, text otherwise. *)
Definition keyKind (key : jsstring) : kind :=
  if jsstring_eqb key (str "isSelected") then KBoolean
  else if derivedKey key then KString
  else if numericKey key then KNumber
  else if flagKey key then KBoolean
  else KString.

(** A text with each newline written as carriage return and newline. *)
Definition toCRLF (s : jsstring) : jsstring :=
  s ≫= (λ c, if c =? LF then [CR; LF] else [c]).

(** The record decoded from [sampleOne]. *)
Definition sampleStory : jsobject :=
  storyOf [str "author"; str "rewritten_story"] 0 (str "bob,hello").

(** ** The story list of [src/App.tsx] *)

(** A property read as a condition; a missing property is [undefined]. *)
Definition condition (o : option value) : bool :=
  match o with
  | Some v => truthy v
  | None => false
  end.

(** [s.isSelected] as a condition. *)
Definition isSelected (s : jsobject) : bool :=
  condition (s !! str "isSelected").

(** [s.status === c] *)
Definition statusIs (c : jsstring) (s : jsobject) : bool :=
  match s !! str "status" with
  | Some (VStr st) => jsstring_eqb st c
  | _ => false
  end.

(** [s.status === 'idle' || s.status === 'error'] *)
Definition generatable (s : jsobject) : bool :=
  statusIs (str "idle") s || statusIs (str "error") s.

(** [s.id === storyId] *)
Definition hasId (storyId : jsstring) (s : jsobject) : bool :=
  match s !! str "id" with
  | Some (VStr id) => jsstring_eqb id storyId
  | _ => false
  end.

(** [handleGenerate]: the stories that are processed. *)
Definition storiesToGenerate (stories : list jsobject) : list jsobject :=
  let selectedStories := filter (λ s, isSelected s = true) stories in
  if (0 <? length selectedStories)%nat
  then filter (λ s, generatable s = true) selectedStories
  else filter (λ s, generatable s = true) stories.

(** The values computed from the list at each render. *)
Definition selectedCount (stories : list jsobject) : nat :=
  length (filter (λ s, isSelected s = true) stories).

Definition allSelected (stories : list jsobject) : bool :=
  (0 <? length stories)%nat && (selectedCount stories =? length stories)%nat.

Definition generatableSelectedCount (stories : list jsobject) : nat :=
  length (filter (λ s, isSelected s && generatable s = true) stories).

Definition generatableAllCount (stories : list jsobject) : nat :=
  length (filter (λ s, generatable s = true) stories).

Definition isGenerateDisabled (stories : list jsobject) : bool :=
  if (0 <? selectedCount stories)%nat
  then (generatableSelectedCount stories =? 0)%nat
  else (generatableAllCount stories =? 0)%nat.

(** [handleDownloadSelected]: the stories that are exported. *)
Definition selectedReady (stories : list jsobject) : list jsobject :=
  filter (λ s, isSelected s && statusIs (str "ready") s = true) stories.

(** The functions passed to [setStories]; a spread copies the own
    properties and the named ones are defined after it. *)
Definition handleSelectStory (storyId : jsstring) (selected : bool)
    (prev : list jsobject) : list jsobject :=
  (λ s, if hasId storyId s then <[str "isSelected" := VBool selected]> s else s)
    <$> prev.

Definition handleSelectAll (selected : bool) (prev : list jsobject)
  : list jsobject :=
  (λ s, <[str "isSelected" := VBool selected]> s) <$> prev.

(** [handleVoiceChange], the update of the list. *)
Definition setVoice (storyId newVoiceName : jsstring) (prev : list jsobject)
  : list jsobject :=
  (λ s, if hasId storyId s then <[str "voiceName" := VStr newVoiceName]> s else s)
    <$> prev.

(** [generateAudioForStory], the update after both audio parts arrived:
    the record written for the story, and the new list. *)
Definition readyStory (storyAudio coverAudio gender voiceName : jsstring)
    (s : jsobject) : jsobject :=
  <[str "status" := VStr (str "ready")]>
    (<[str "voiceName" := VStr voiceName]>
       (<[str "narratorGender" := VStr gender]>
          (<[str "coverAudioData" := VStr coverAudio]>
             (<[str "audioData" := VStr storyAudio]> s)))).

Definition setReady (storyId storyAudio coverAudio gender voiceName : jsstring)
    (prev : list jsobject) : list jsobject :=
  (λ s, if hasId storyId s
        then readyStory storyAudio coverAudio gender voiceName s
        else s) <$> prev.

(** [generateAudioForStory], the update before the requests are sent:
    [{ ...s, status: 'loading', errorMessage: undefined }]. A [jsobject]
    holds the properties that have a value and a missing name reads as
    [undefined], so the property set to [undefined] leaves the map. *)
Definition setLoading (storyId : jsstring) (prev : list jsobject)
  : list jsobject :=
  (λ s, if hasId storyId s
        then delete (str "errorMessage")
               (<[str "status" := VStr (str "loading")]> s)
        else s) <$> prev.

(** [generateAudioForStory], the update in the [catch] branch. *)
Definition setError (storyId errorMessage : jsstring) (prev : list jsobject)
  : list jsobject :=
  (λ s, if hasId storyId s
        then <[str "errorMessage" := VStr errorMessage]>
               (<[str "status" := VStr (str "error")]> s)
        else s) <$> prev.

(** These updates as data, and a run of them from a first list. *)
Inductive update :=
  | SelectStory (storyId : jsstring) (selected : bool)
  | SelectAll (selected : bool)
  | SetVoice (storyId newVoiceName : jsstring)
  | SetLoading (storyId : jsstring)
  | SetReady (storyId storyAudio coverAudio gender voiceName : jsstring)
  | SetError (storyId errorMessage : jsstring).

Definition setStories (u : update) (prev : list jsobject) : list jsobject :=
  match u with
  | SelectStory storyId selected => handleSelectStory storyId selected prev
  | SelectAll selected => handleSelectAll selected prev
  | SetVoice storyId newVoiceName => setVoice storyId newVoiceName prev
  | SetLoading storyId => setLoading storyId prev
  | SetReady storyId storyAudio coverAudio gender voiceName =>
      setReady storyId storyAudio coverAudio gender voiceName prev
  | SetError storyId errorMessage => setError storyId errorMessage prev
  end.

Definition updated (us : list update) (stories : list jsobject)
  : list jsobject :=
  foldl (λ st u, setStories u st) stories us.

(** The property names these updates write. *)
Definition stateKey (key : jsstring) : bool :=
  jsstring_eqb key (str "isSelected") || jsstring_eqb key (str "voiceName")
  || jsstring_eqb key (str "audioData") || jsstring_eqb key (str "coverAudioData")
  || jsstring_eqb key (str "narratorGender") || jsstring_eqb key (str "status")
  || jsstring_eqb key (str "errorMessage").

(** ** File names of the downloads *)

Inductive audioType := TStory | TCover.

Definition typeName (type : audioType) : jsstring :=
  match type with
  | TStory => str "story"
  | TCover => str "cover"
  end.

(** [name || fallback], written to a string. *)
Definition orElse (name : option value) (fallback : jsstring) : jsstring :=
  match name with
  | Some v => if truthy v then toStr v else fallback
  | None => fallback
  end.

(** [handleDownloadAudio]: the name given to the download. *)
Definition downloadFileName (story : jsobject) (type : audioType) : jsstring :=
  let fileName :=
    match type with
    | TStory => story !! str "audioFileName"
    | TCover => story !! str "coverAudioFileName"
    end in
  orElse fileName
    (template (story !! str "id") ++ str "_" ++ typeName type ++ str ".wav").

(** [exportStoryToTxt]: the text and the file name. *)
Definition transcriptText (story : jsobject) : jsstring :=
  str "Title: " ++ template (story !! str "title") ++ [LF; LF]
  ++ str "Cover Text:" ++ [LF] ++ template (story !! str "cover_text")
  ++ [LF; LF] ++ str "---" ++ [LF; LF] ++ str "Full Story:" ++ [LF]
  ++ template (story !! str "rewritten_story").

Definition transcriptFileName (story : jsobject) : jsstring :=
  template (story !! str "id") ++ str "_transcript.txt".

(** [handleDownloadSelected]: the names of the files put into the folder of
    one story, in the order of the calls. *)
Definition folderFiles (story : jsobject) : list jsstring :=
  (if condition (story !! str "audioData")
   then [orElse (story !! str "audioFileName")
           (template (story !! str "id") ++ str "_story.wav")]
   else [])
  ++ (if condition (story !! str "coverAudioData")
      then [orElse (story !! str "coverAudioFileName")
              (template (story !! str "id") ++ str "_cover.wav")]
      else [])
  ++ [template (story !! str "id") ++ str "_transcript.txt"].

#[global] Instance value_eq_dec : EqDecision value.
Proof. solve_decision. Defined.

(** Two records that have nothing but an [id]. *)
Definition sampleList : list jsobject :=
  [ {[ str "id" := VStr (str "ann-0") ]}; {[ str "id" := VStr (str "bob-1") ]} ].

(** ** Buttons *)

(** [StoryCard]: [disabled] of the play button,
    [story.status === 'loading' || !story.rewritten_story]. *)
Definition playDisabled (story : jsobject) : bool :=
  statusIs (str "loading") story
  || negb (condition (story !! str "rewritten_story")).

(** [generateAudioForStory]: the guard that throws for a story without
    content, [!rewritten_story && !cover_text]. *)
Definition noContent (story : jsobject) : bool :=
  negb (condition (story !! str "rewritten_story"))
  && negb (condition (story !! str "cover_text")).

(** [GlobalControls]: [disabled] of the Generate button,
    [isGenerating || isGenerateDisabled]. *)
Definition generateDisabled (isGenerating isGenerateDisabled : bool) : bool :=
  isGenerating || isGenerateDisabled.

(** [GlobalControls]: [disabled] of the Download ZIP button. *)
Definition downloadZipDisabled (selectedCount : nat) : bool :=
  (selectedCount =? 0)%nat.

(** A selected story with audio. *)
Definition sampleReady : jsobject :=
  readyStory (str "QUJD") [] (str "male") (str "Puck")
    (<[str "isSelected" := VBool true]> {[ str "id" := VStr (str "ann-0") ]}).

(** ** Further sample inputs *)



(** [sampleStory] while its audio is requested. *)
Definition sampleLoading : jsobject :=
  delete (str "errorMessage")
    (<[str "status" := VStr (str "loading")]> sampleStory).

(** ** Proof automation *)

Ltac key_neq :=
  let H := fresh in intros H; vm_compute in H; discriminate H.

Ltac solve_fields :=
  repeat (apply Forall_cons; split); try apply Forall_nil;
  cbn [lineCell plainCell]; unfold lineField, plainField, nonBlank;
  repeat split; first [reflexivity | compute_done].

(** * Properties *)

(** ** Trimming *)

Section Trimming.

Implicit Types (s a b f : jsstring) (c : N).

Lemma trim_nil : trim [] = [].
Proof. reflexivity. Qed.

Lemma trimStart_decomp s :
  ∃ pre, s = pre ++ trimStart s ∧ Forall (λ c, isWhiteSpace c = true) pre.
Proof.
  induction s as [|c s (pre & Hs & Hpre)]; [by exists []|].
  cbn. destruct (isWhiteSpace c) eqn:Hc.
  - exists (c :: pre). split; [by rewrite <- app_comm_cons, <- Hs|].
    by constructor.
  - by exists [].
Qed.

Lemma trimStart_app_nonws a c b :
  isWhiteSpace c = false → trimStart (a ++ c :: b) = trimStart a ++ c :: b.
Proof.
  intros Hc. induction a as [|x a IH]; cbn.
  - by rewrite Hc.
  - by destruct (isWhiteSpace x).
Qed.

Lemma trimEnd_app_nonws a c b :
  isWhiteSpace c = false → trimEnd (a ++ c :: b) = a ++ c :: trimEnd b.
Proof.
  intros Hc. unfold trimEnd.
  rewrite reverse_app, reverse_cons, <- app_assoc. cbn [app].
  rewrite trimStart_app_nonws by done.
  rewrite reverse_app, reverse_cons, reverse_involutive.
  by rewrite <- app_assoc.
Qed.

Lemma trimEnd_decomp s :
  ∃ post, s = trimEnd s ++ post ∧ Forall (λ c, isWhiteSpace c = true) post.
Proof.
  destruct (trimStart_decomp (reverse s)) as (pre & Hs & Hpre).
  exists (reverse pre). split.
  - unfold trimEnd. rewrite <- reverse_app, <- Hs. by rewrite reverse_involutive.
  - by apply Forall_reverse.
Qed.

Lemma elem_of_trimStart c s : c ∈ trimStart s → c ∈ s.
Proof.
  destruct (trimStart_decomp s) as (pre & Hs & _). intros Hin.
  rewrite Hs. apply elem_of_app. by right.
Qed.

Lemma elem_of_trimEnd c s : c ∈ trimEnd s → c ∈ s.
Proof.
  destruct (trimEnd_decomp s) as (post & Hs & _). intros Hin.
  rewrite Hs. apply elem_of_app. by left.
Qed.

Lemma elem_of_trim c s : c ∈ trim s → c ∈ s.
Proof. intros Hin. by apply elem_of_trimStart, elem_of_trimEnd. Qed.

Lemma plainField_trimStart f : plainField f → plainField (trimStart f).
Proof.
  intros [Hq Hc]. split; intros Hin; [apply Hq|apply Hc];
    by apply elem_of_trimStart.
Qed.

Lemma plainField_trimEnd f : plainField f → plainField (trimEnd f).
Proof.
  intros [Hq Hc]. split; intros Hin; [apply Hq|apply Hc];
    by apply elem_of_trimEnd.
Qed.

End Trimming.

(** ** Line-ending normalisation *)

Section Normalisation.

Implicit Types (s data : jsstring) (c : N).

Lemma list_ind2 {A} (P : list A → Prop) :
  P [] → (∀ x, P [x]) → (∀ x y l, P l → P (y :: l) → P (x :: y :: l)) →
  ∀ l, P l.
Proof.
  intros H0 H1 H2 l. enough (P l ∧ ∀ x, P (x :: l)) by tauto.
  induction l as [|y l [IHl IHc]]; [by split|].
  split; [apply IHc|]. intros x. by apply H2.
Qed.

Lemma replaceCRLF_cons2 c c' rest :
  replaceCRLF (c :: c' :: rest)
  = if (c =? CR) && (c' =? LF) then LF :: replaceCRLF rest
    else c :: replaceCRLF (c' :: rest).
Proof. reflexivity. Qed.

Lemma elem_of_replaceCRLF c s : c ∈ replaceCRLF s → c ∈ s.
Proof.
  revert c. induction s as [|x|x y l IHl IHc] using list_ind2; intros c; [done..|].
  rewrite replaceCRLF_cons2. destruct (_ && _) eqn:Hcrlf.
  - apply andb_true_iff in Hcrlf as [_ Hy%N.eqb_eq]. subst y.
    rewrite !elem_of_cons. intros [->|Hin]; [by right; left|].
    right; right. by apply IHl.
  - rewrite !(elem_of_cons _ c x). intros [->|Hin]; [by left|].
    right. by apply IHc.
Qed.

Lemma elem_of_normalize c data : c ∈ normalize data → c ∈ data.
Proof. intros Hin. by apply elem_of_replaceCRLF, elem_of_trim. Qed.

End Normalisation.

(** ** The row splitter *)

Section RowSplitter.

Implicit Types (s a b cur row body : jsstring) (rs : list jsstring) (st : RowState).

Lemma join_cons_cons sep (x y : jsstring) (l : list jsstring) :
  join sep (x :: y :: l) = x ++ sep :: join sep (y :: l).
Proof. reflexivity. Qed.

Lemma rowLoop_app a b st : rowLoop (a ++ b) st = rowLoop b (rowLoop a st).
Proof. apply fold_left_app. Qed.

Lemma rowLoop_cons c s st : rowLoop (c :: s) st = rowLoop s (rowStep st c).
Proof. reflexivity. Qed.

Lemma rowStep_other st c :
  c ≠ QUOTE → (c ≠ LF ∨ rInQuotes st = true) →
  rowStep st c = mkRowState (rows st) (currentRow st ++ [c]) (rInQuotes st).
Proof.
  intros Hq Hlf. unfold rowStep.
  rewrite (proj2 (N.eqb_neq c QUOTE)) by done.
  destruct Hlf as [Hlf| ->].
  - by rewrite (proj2 (N.eqb_neq c LF)).
  - by rewrite andb_false_r.
Qed.

Lemma rowStep_quote st :
  rowStep st QUOTE
  = mkRowState (rows st) (currentRow st ++ [QUOTE]) (negb (rInQuotes st)).
Proof. reflexivity. Qed.


(** Outside a quoted span, text without quote or newline joins the current
    row. *)
Lemma rowLoop_plain s : ∀ rs cur q,
  QUOTE ∉ s → (LF ∉ s ∨ q = true) →
  rowLoop s (mkRowState rs cur q) = mkRowState rs (cur ++ s) q.
Proof.
  induction s as [|c s IH]; intros rs cur q Hq Hlf.
  - by rewrite app_nil_r.
  - apply not_elem_of_cons in Hq as [Hcq Hq].
    rewrite rowLoop_cons, rowStep_other; cbn [rows currentRow rInQuotes].
    + rewrite IH; [by rewrite <- app_assoc|done|].
      destruct Hlf as [Hlf|Hlf]; [left|by right].
      by apply not_elem_of_cons in Hlf as [_ Hlf].
    + done.
    + destruct Hlf as [Hlf|Hlf]; [left|by right].
      by apply not_elem_of_cons in Hlf as [Hlf _].
Qed.

(** Without a newline no row is ever pushed inside the loop. *)
Lemma rowLoop_no_newline s : ∀ st, LF ∉ s → rows (rowLoop s st) = rows st.
Proof.
  induction s as [|c s IH]; intros st Hlf; [done|].
  apply not_elem_of_cons in Hlf as [Hc Hlf].
  rewrite rowLoop_cons, IH by done. unfold rowStep.
  by rewrite (proj2 (N.eqb_neq c LF)).
Qed.

Lemma pushRow_length rs row : (length (pushRow rs row) ≤ S (length rs))%nat.
Proof.
  unfold pushRow. destruct (nonEmpty _); [|lia].
  rewrite length_app. cbn. lia.
Qed.

Lemma splitRows_no_newline s : LF ∉ s → (length (splitRows s) < 2)%nat.
Proof.
  intros Hlf. unfold splitRows.
  pose proof (pushRow_length (rows (rowLoop s rowInit))
                (currentRow (rowLoop s rowInit))) as Hlen.
  cbv zeta. rewrite rowLoop_no_newline in Hlen |- * by done.
  unfold rowInit in *. cbn [rows length] in *. lia.
Qed.

Lemma pushRow_filter rs row : pushRow rs row = rs ++ filter nonBlank [row].
Proof.
  unfold pushRow. rewrite filter_cons, filter_nil. unfold nonBlank.
  case_decide as Hrow.
  - by rewrite Hrow.
  - apply not_true_is_false in Hrow. by rewrite Hrow, app_nil_r.
Qed.

Lemma logicalRows_nonempty s q : ∃ row others, logicalRows s q = row :: others.
Proof.
  destruct s as [|c s]; [by eexists _, _|]. cbn [logicalRows].
  destruct (_ && _); [by eexists _, _|].
  destruct (logicalRows s _); by eexists _, _.
Qed.

(** The loop of the row splitter keeps the non-blank logical rows. *)
Lemma rowLoop_logicalRows s : ∀ st,
  ∃ row others,
    logicalRows s (rInQuotes st) = row :: others
    ∧ rowsOf (rowLoop s st)
      = rows st ++ filter nonBlank ((currentRow st ++ row) :: others).
Proof.
  induction s as [|c s IH]; intros st.
  - exists [], []. split; [done|]. rewrite app_nil_r. apply pushRow_filter.
  - rewrite rowLoop_cons. destruct (IH (rowStep st c)) as (row & others & Hl & Hr).
    rewrite Hr. clear Hr. cbn [logicalRows]. unfold rowStep in *.
    set (q := if c =? QUOTE then negb (rInQuotes st) else rInQuotes st) in *.
    destruct ((c =? LF) && negb q); cbn [rows currentRow rInQuotes] in *.
    + exists [], (row :: others). rewrite Hl. split; [done|].
      rewrite pushRow_filter, app_nil_r, <- app_assoc. cbn [app].
      by rewrite <- filter_app.
    + exists (c :: row), others. rewrite Hl. split; [done|].
      by rewrite <- app_assoc.
Qed.

Lemma join_logicalRows s : ∀ q, join LF (logicalRows s q) = s.
Proof.
  induction s as [|c s IH]; intros q; [done|]. cbn [logicalRows].
  set (q' := if c =? QUOTE then negb q else q).
  destruct (logicalRows_nonempty s q') as (row & others & Hl).
  specialize (IH q'). rewrite Hl in *.
  destruct ((c =? LF) && negb q') eqn:Hc.
  - apply andb_true_iff in Hc as [->%N.eqb_eq _].
    rewrite join_cons_cons. cbn [app]. by rewrite IH.
  - destruct others as [|other others].
    + cbn in *. by rewrite IH.
    + rewrite join_cons_cons in *. cbn [app]. by rewrite IH.
Qed.

Lemma escapeQuotes_cons c body :
  escapeQuotes (c :: body)
  = (if c =? QUOTE then [QUOTE; QUOTE] else [c]) ++ escapeQuotes body.
Proof. reflexivity. Qed.



End RowSplitter.

(** ** The field splitter *)

Section FieldSplitter.

Implicit Types (row rest cur f body : jsstring) (fs acc : list jsstring)
  (st : FieldState).

Lemma fieldLoop_cons char rest st :
  fieldLoop (char :: rest) st
  = let '(st', skip) := fieldStep st char (head rest) in
    if skip then fieldLoop (tail rest) st' else fieldLoop rest st'.
Proof.
  cbn [fieldLoop]. destruct (fieldStep st char (head rest)) as [st' [|]];
    [|reflexivity].
  by destruct rest.
Qed.

Lemma fieldLoop_plain f : ∀ rest fs cur,
  plainField f →
  fieldLoop (f ++ rest) (mkFieldState fs cur false)
  = fieldLoop rest (mkFieldState fs (cur ++ f) false).
Proof.
  induction f as [|c f IH]; intros rest fs cur [Hq Hc].
  - by rewrite app_nil_r.
  - apply not_elem_of_cons in Hq as [Hcq Hq].
    apply not_elem_of_cons in Hc as [Hcc Hc].
    rewrite <- app_comm_cons, fieldLoop_cons.
    cbn [fieldStep fInQuotes fields currentField].
    rewrite (proj2 (N.eqb_neq c QUOTE)), (proj2 (N.eqb_neq c COMMA)) by done.
    rewrite IH by done. by rewrite <- app_assoc.
Qed.

Lemma fieldLoop_comma rest fs cur :
  fieldLoop (COMMA :: rest) (mkFieldState fs cur false)
  = fieldLoop rest (mkFieldState (fs ++ [cur]) [] false).
Proof. by rewrite fieldLoop_cons. Qed.

Lemma fieldLoop_open rest fs cur :
  fieldLoop (QUOTE :: rest) (mkFieldState fs cur false)
  = fieldLoop rest (mkFieldState fs cur true).
Proof. by rewrite fieldLoop_cons. Qed.

Lemma fieldLoop_escaped_quote rest fs cur :
  fieldLoop (QUOTE :: QUOTE :: rest) (mkFieldState fs cur true)
  = fieldLoop rest (mkFieldState fs (cur ++ [QUOTE]) true).
Proof. reflexivity. Qed.

Lemma fieldLoop_close rest fs cur :
  head rest ≠ Some QUOTE →
  fieldLoop (QUOTE :: rest) (mkFieldState fs cur true)
  = fieldLoop rest (mkFieldState fs cur false).
Proof.
  intros Hlone. rewrite fieldLoop_cons.
  destruct rest as [|c rest]; [reflexivity|].
  cbn [head fieldStep fInQuotes fields currentField]. rewrite N.eqb_refl.
  destruct (c =? QUOTE) eqn:Hc; [|reflexivity].
  apply N.eqb_eq in Hc. by subst c.
Qed.

Lemma fieldLoop_quoted_char c rest fs cur :
  c ≠ QUOTE →
  fieldLoop (c :: rest) (mkFieldState fs cur true)
  = fieldLoop rest (mkFieldState fs (cur ++ [c]) true).
Proof.
  intros Hc. rewrite fieldLoop_cons.
  cbn [fieldStep fInQuotes fields currentField].
  by rewrite (proj2 (N.eqb_neq c QUOTE)).
Qed.

(** Inside the quoted span the escaped text is read back as the field. *)
Lemma fieldLoop_escaped body : ∀ rest fs cur,
  fieldLoop (escapeQuotes body ++ rest) (mkFieldState fs cur true)
  = fieldLoop rest (mkFieldState fs (cur ++ body) true).
Proof.
  induction body as [|c body IH]; intros rest fs cur.
  - by rewrite app_nil_r.
  - rewrite escapeQuotes_cons. destruct (c =? QUOTE) eqn:Hc.
    + apply N.eqb_eq in Hc. subst c. cbn [app].
      rewrite fieldLoop_escaped_quote, IH. by rewrite <- app_assoc.
    + apply N.eqb_neq in Hc. cbn [app].
      rewrite fieldLoop_quoted_char, IH by done. by rewrite <- app_assoc.
Qed.

Lemma fieldLoop_quoteField body rest fs cur :
  head rest ≠ Some QUOTE →
  fieldLoop (quoteField body ++ rest) (mkFieldState fs cur false)
  = fieldLoop rest (mkFieldState fs (cur ++ body) false).
Proof.
  intros Hrest. unfold quoteField.
  rewrite <- app_comm_cons, fieldLoop_open, <- app_assoc, fieldLoop_escaped.
  cbn [app]. by apply fieldLoop_close.
Qed.

End FieldSplitter.

(** ** The record builder *)

Section RecordBuilder.

Implicit Types (obj : jsobject) (key h : jsstring) (headers values : list jsstring).

Lemma setProp_insert (obj : jsobject) key v :
  key ≠ str "__proto__" → setProp obj key v = <[key := v]> obj.
Proof.
  intros Hne. unfold setProp, jsstring_eqb.
  by rewrite bool_decide_eq_false_2.
Qed.

Lemma setProp_lookup_proto (obj : jsobject) key v :
  setProp obj key v !! str "__proto__" = obj !! str "__proto__".
Proof.
  unfold setProp, jsstring_eqb. case_bool_decide as Hkey; [done|].
  by rewrite lookup_insert_ne.
Qed.

Lemma setProp_lookup_ne (obj : jsobject) key key' v :
  key ≠ key' → setProp obj key v !! key' = obj !! key'.
Proof.
  intros Hne. unfold setProp. destruct (jsstring_eqb _ _); [done|].
  by rewrite lookup_insert_ne.
Qed.

Lemma numeric_not_flag key : numericKey key = true → flagKey key = false.
Proof.
  unfold numericKey, flagKey, jsstring_eqb. intros H.
  apply orb_true_iff in H as [H|H]; apply bool_decide_eq_true_1 in H;
    subst key; reflexivity.
Qed.

Lemma coerce_VStr key s : coerce key (VStr s) = Some (coerced key s).
Proof.
  unfold coerce, coerced. destruct (numericKey key) eqn:Hn.
  - by rewrite (numeric_not_flag _ Hn).
  - by destruct (flagKey key).
Qed.

Lemma assignFields_Some headers : ∀ i values obj,
  assignFields headers i values obj = Some (assigned headers i values obj).
Proof.
  induction headers as [|h rest IH]; intros i values obj; [done|].
  cbn [assignFields assigned]. rewrite coerce_VStr. cbn. apply IH.
Qed.

Lemma buildStory_Some headers rowStr index :
  buildStory headers rowStr index =
  Some (derived (assigned headers 0 (rowValues (length headers) rowStr) ∅) index).
Proof.
  unfold buildStory. rewrite assignFields_Some. cbn [mbind option_bind].
  set (obj := assigned _ _ _ _).
  set (id := sanitize _).
  rewrite !setProp_insert by key_neq.
  rewrite !lookup_insert_ne by key_neq.
  rewrite lookup_insert_eq. reflexivity.
Qed.

Lemma derived_lookup_other (obj : jsobject) index key :
  derivedKey key = false → derived obj index !! key = obj !! key.
Proof.
  unfold derivedKey, jsstring_eqb. intros H.
  repeat (apply orb_false_iff in H as [H ?]).
  repeat match goal with
  | Hb : bool_decide _ = false |- _ => apply bool_decide_eq_false_1 in Hb
  end.
  unfold derived. by rewrite !lookup_insert_ne.
Qed.

Lemma assigned_lookup_notin headers : ∀ i values (obj : jsobject) key,
  key ∉ headers → assigned headers i values obj !! key = obj !! key.
Proof.
  induction headers as [|h rest IH]; intros i values obj key Hnotin; [done|].
  apply not_elem_of_cons in Hnotin as [Hne Hrest].
  cbn [assigned]. rewrite IH by done. by apply setProp_lookup_ne.
Qed.

(** A column named [__proto__] leaves no property behind. *)
Lemma assigned_lookup_proto headers : ∀ i values (obj : jsobject),
  assigned headers i values obj !! str "__proto__" = obj !! str "__proto__".
Proof.
  induction headers as [|h rest IH]; intros i values obj; [done|].
  cbn [assigned]. rewrite IH. apply setProp_lookup_proto.
Qed.

(** The last column carrying a name decides the property of that name. *)
Lemma assigned_lookup_last headers : ∀ i values (obj : jsobject) j h,
  headers !! j = Some h → h ∉ drop (S j) headers → h ≠ str "__proto__" →
  assigned headers i values obj !! h
  = Some (coerced h (orEmpty (values !! (i + j)%nat))).
Proof.
  induction headers as [|h0 rest IH]; intros i values obj j h Hj Hlast Hproto;
    [done|].
  destruct j as [|j]; cbn [assigned].
  - injection Hj as ->. change (h ∉ drop 0 rest) in Hlast.
    rewrite drop_0 in Hlast. rewrite assigned_lookup_notin by done.
    rewrite setProp_insert by done. rewrite lookup_insert_eq.
    by rewrite Nat.add_0_r.
  - rewrite (IH (S i) values _ j h); [|done..].
    by replace (S i + j)%nat with (i + S j)%nat by lia.
Qed.

Lemma typed_empty : typed ∅.
Proof. intros key v H. by rewrite lookup_empty in H. Qed.

Lemma typed_setProp (obj : jsobject) key s :
  typed obj → typed (setProp obj key (coerced key s)).
Proof.
  intros Hobj key' v. unfold setProp. destruct (jsstring_eqb _ _); [apply Hobj|].
  rewrite lookup_insert. case_decide as Hk.
  - subst key'. intros [= <-]. by exists s.
  - apply Hobj.
Qed.

Lemma typed_assigned headers : ∀ i values (obj : jsobject),
  typed obj → typed (assigned headers i values obj).
Proof.
  induction headers as [|h rest IH]; intros i values obj Hobj; [done|].
  cbn [assigned]. apply IH. by apply typed_setProp.
Qed.

Lemma padLoop_replicate n : ∀ values,
  padLoop n values = values ++ replicate n [].
Proof.
  induction n as [|n IH]; intros values; cbn.
  - by rewrite app_nil_r.
  - by rewrite IH, <- app_assoc.
Qed.

Lemma padValues_replicate headerCount values :
  padValues headerCount values
  = values ++ replicate (headerCount - length values) [].
Proof. apply padLoop_replicate. Qed.

Lemma padValues_length headerCount values :
  length (padValues headerCount values) = max headerCount (length values).
Proof. rewrite padValues_replicate, length_app, length_replicate. lia. Qed.

Lemma orEmpty_default o : orEmpty o = default [] o.
Proof. by destruct o as [[|c s]|]. Qed.

(** Reading a padded row falls back to the empty string exactly where the
    row itself has no value. *)
Lemma padValues_lookup headerCount values j :
  default [] (padValues headerCount values !! j) = default [] (values !! j).
Proof.
  rewrite padValues_replicate.
  destruct (decide (j < length values)%nat) as [Hlt|Hge].
  - by rewrite lookup_app_l.
  - rewrite lookup_app_r by lia. rewrite (lookup_ge_None_2 values) by lia.
    cbn. destruct (replicate _ _ !! _) as [s|] eqn:Hs; [|done].
    by apply lookup_replicate_1 in Hs as [-> _].
Qed.

(** The property a record holds under the name of column [j]. *)
Lemma storyOf_lookup headers index rowStr j h :
  headers !! j = Some h → h ∉ drop (S j) headers →
  h ≠ str "__proto__" → derivedKey h = false →
  storyOf headers index rowStr !! h
  = Some (coerced h (default [] (parseCsvRow (trim rowStr) !! j))).
Proof.
  intros Hj Hlast Hproto Hder. unfold storyOf.
  rewrite derived_lookup_other by done.
  rewrite (assigned_lookup_last _ _ _ _ j) by done.
  rewrite orEmpty_default. cbn [Nat.add]. unfold rowValues.
  by rewrite padValues_lookup.
Qed.

(** A column named [__proto__] does not reach the record. *)
Lemma storyOf_no_proto headers index rowStr :
  storyOf headers index rowStr !! str "__proto__" = None.
Proof.
  unfold storyOf. rewrite derived_lookup_other by reflexivity.
  by rewrite assigned_lookup_proto.
Qed.

Lemma coerced_empty key : coerced key [] = defaultValue key.
Proof. unfold coerced, defaultValue. by repeat destruct (_ key). Qed.

Lemma storyOf_body_text headers index rowStr v :
  storyOf headers index rowStr !! str "rewritten_story" = Some v →
  ∃ s, v = VStr s.
Proof.
  unfold storyOf. rewrite derived_lookup_other by reflexivity.
  intros Hv. eapply typed_assigned in Hv as [s ->]; [|apply typed_empty].
  by exists s.
Qed.

End RecordBuilder.

(** ** Identifiers *)

Section Identifiers.

Implicit Types (c : N) (s author : jsstring).

Lemma uintChars_inj d : ∀ d', uintChars d = uintChars d' → d = d'.
Proof.
  induction d as [|d IH|d IH|d IH|d IH|d IH|d IH|d IH|d IH|d IH|d IH];
    intros [|d'|d'|d'|d'|d'|d'|d'|d'|d'|d'] H; try discriminate H;
    try reflexivity; injection H as H; f_equal; by apply IH.
Qed.

Lemma natToString_inj i j : natToString i = natToString j → i = j.
Proof. intros H. by apply Unsigned.to_uint_inj, uintChars_inj. Qed.

Lemma uintChars_digits d : Forall (λ c, isDigit c = true) (uintChars d).
Proof. induction d; constructor; done. Qed.

Lemma isDigit_idChar c : isDigit c = true → idChar c = true.
Proof.
  unfold isDigit, idChar. intros ->. by rewrite !orb_true_r.
Qed.

Lemma isDigit_not_minus c : isDigit c = true → c ≠ MINUS.
Proof. intros Hd ->. discriminate Hd. Qed.

Lemma natToString_no_minus i : MINUS ∉ natToString i.
Proof.
  intros Hin. pose proof (uintChars_digits (Nat.to_uint i)) as Hd.
  rewrite Forall_forall in Hd. by apply (isDigit_not_minus _ (Hd _ Hin)).
Qed.

Lemma sanitize_app a b : sanitize (a ++ b) = sanitize a ++ sanitize b.
Proof. apply filter_app. Qed.

Lemma sanitize_idChars s : Forall (λ c, idChar c = true) (sanitize s).
Proof.
  apply Forall_forall. intros c Hin. unfold sanitize in Hin.
  by apply list_elem_of_filter in Hin as [Hc _].
Qed.

Lemma sanitize_fixed s : Forall (λ c, idChar c = true) s → sanitize s = s.
Proof.
  induction 1 as [|c s Hc _ IH]; [done|].
  unfold sanitize. rewrite filter_cons_True by done. f_equal. apply IH.
Qed.

(** The sanitised identifier keeps its separator and its index. *)
Lemma sanitize_id author index :
  sanitize (author ++ [MINUS] ++ natToString index)
  = sanitize author ++ MINUS :: natToString index.
Proof.
  rewrite !sanitize_app. f_equal.
  rewrite (sanitize_fixed (natToString index)); [done|].
  eapply Forall_impl; [apply uintChars_digits|]. apply isDigit_idChar.
Qed.

(** The text after the last separator determines the index. *)
Lemma app_sep_inj {A} (sep : A) a : ∀ b d1 d2,
  sep ∉ d1 → sep ∉ d2 → a ++ sep :: d1 = b ++ sep :: d2 → d1 = d2.
Proof.
  induction a as [|x a IH]; intros b d1 d2 H1 H2 Heq.
  - destruct b as [|y b]; [by injection Heq|].
    injection Heq as _ Heq. exfalso. apply H1. rewrite Heq.
    apply elem_of_app. right. by left.
  - destruct b as [|y b].
    + injection Heq as _ Heq. exfalso. apply H2. rewrite <- Heq.
      apply elem_of_app. right. by left.
    + injection Heq as _ Heq. by eapply IH.
Qed.

Lemma storyOf_id_lookup headers index rowStr :
  storyOf headers index rowStr !! str "id"
  = Some (VStr (sanitize
      (authorOrStory (assigned headers 0 (rowValues (length headers) rowStr) ∅)
       ++ [MINUS] ++ natToString index))).
Proof.
  unfold storyOf, derived.
  rewrite !lookup_insert_ne by key_neq. by rewrite lookup_insert_eq.
Qed.

(** The derived properties leave the author field as it is. *)
Lemma authorOrStory_storyOf headers index rowStr :
  authorOrStory (storyOf headers index rowStr)
  = authorOrStory (assigned headers 0 (rowValues (length headers) rowStr) ∅).
Proof.
  unfold authorOrStory, storyOf. by rewrite derived_lookup_other.
Qed.

Lemma storyOf_id headers index rowStr :
  ∃ author,
    idOf (storyOf headers index rowStr)
    = Some (VStr (sanitize author ++ MINUS :: natToString index)).
Proof.
  unfold idOf, storyOf, derived. eexists.
  rewrite !lookup_insert_ne by key_neq. rewrite lookup_insert_eq.
  by rewrite sanitize_id.
Qed.

Lemma storyOf_id_inj headers i j rowStr rowStr' :
  idOf (storyOf headers i rowStr) = idOf (storyOf headers j rowStr') → i = j.
Proof.
  destruct (storyOf_id headers i rowStr) as [a ->].
  destruct (storyOf_id headers j rowStr') as [b ->].
  intros [= Heq]. apply natToString_inj.
  eapply app_sep_inj; [apply natToString_no_minus..|exact Heq].
Qed.

End Identifiers.

(** ** The stages of [parseCSV] *)

Section Decoder.

Implicit Types (story : jsobject) (rows : list jsstring) (data : jsstring).

Lemma buildStories_Some rows : buildStories rows = Some (built rows).
Proof.
  unfold buildStories, built. fold (headersOf rows).
  transitivity (mapM (M:=option) id
    (Some <$> imap (storyOf (headersOf rows)) (drop 1 rows))).
  - f_equal. rewrite fmap_imap. apply imap_ext. intros. apply buildStory_Some.
  - by apply mapM_fmap_Some.
Qed.

Lemma built_short rows : (length rows < 2)%nat → built rows = [].
Proof.
  intros Hlen. unfold built. rewrite drop_ge by lia. reflexivity.
Qed.

Lemma keepStory_text (story : jsobject) :
  (∀ v, story !! str "rewritten_story" = Some v → ∃ s, v = VStr s) →
  keepStory story = Some (bool_decide (bodyLongerThanOne story)).
Proof.
  intros Htext. unfold keepStory.
  destruct (story !! str "rewritten_story") as [v|] eqn:Hv.
  - destruct (Htext v eq_refl) as [s ->]. cbn [truthy].
    destruct s as [|c s]; cbn [nonEmpty].
    + f_equal. symmetry. apply bool_decide_eq_false_2.
      intros (s' & Hs' & Hlt). rewrite Hv in Hs'. injection Hs' as <-.
      rewrite trim_nil in Hlt. cbn in Hlt. lia.
    + f_equal. destruct (1 <? length (trim (c :: s)))%nat eqn:Hlen; symmetry.
      * apply bool_decide_eq_true_2. exists (c :: s). split; [done|].
        by apply Nat.ltb_lt.
      * apply bool_decide_eq_false_2. intros (s' & Hs' & Hlt).
        rewrite Hv in Hs'. injection Hs' as <-.
        apply Nat.ltb_ge in Hlen. lia.
  - f_equal. symmetry. apply bool_decide_eq_false_2.
    intros (s' & Hs' & _). by rewrite Hv in Hs'.
Qed.

Lemma filterStories_text (l : list jsobject) :
  Forall (λ story, ∀ v, story !! str "rewritten_story" = Some v → ∃ s, v = VStr s) l →
  filterStories l = Some (filter bodyLongerThanOne l).
Proof.
  induction 1 as [|story rest Hstory _ IH]; [done|].
  cbn [filterStories]. rewrite keepStory_text by done. rewrite IH.
  cbn [mbind option_bind]. rewrite filter_cons. by case_bool_decide; case_decide.
Qed.

Lemma built_body_text rows :
  Forall (λ story : jsobject, ∀ v, story !! str "rewritten_story" = Some v → ∃ s, v = VStr s)
    (built rows).
Proof.
  apply Forall_forall. intros story Hin. unfold built in Hin.
  apply elem_of_lookup_imap_1 in Hin as (i & rowStr & -> & _).
  apply storyOf_body_text.
Qed.

(** The decoder as the composition of its stages. *)
Lemma parseCSV_stages data :
  parseCSV data
  = Some (filter bodyLongerThanOne (built (splitRows (normalize data)))).
Proof.
  unfold parseCSV. set (rows := splitRows (normalize data)).
  destruct (length rows <? 2)%nat eqn:Hlen.
  - apply Nat.ltb_lt in Hlen. by rewrite built_short.
  - rewrite buildStories_Some. cbn [mbind option_bind].
    apply filterStories_text, built_body_text.
Qed.

Lemma built_ids_NoDup rows : NoDup (idOf <$> built rows).
Proof.
  apply NoDup_alt. intros i j x. unfold built.
  rewrite !list_lookup_fmap, !list_lookup_imap.
  destruct (drop 1 rows !! i) as [ri|]; [|done].
  destruct (drop 1 rows !! j) as [rj|]; [|done].
  cbn. intros [= <-] [= Heq]. symmetry. by eapply storyOf_id_inj.
Qed.

Lemma NoDup_fmap_filter {A B} (f : A → B) (P : A → Prop)
    `{!∀ x, Decision (P x)} (l : list A) :
  NoDup (f <$> l) → NoDup (f <$> filter P l).
Proof.
  induction l as [|x l IH]; [done|].
  rewrite fmap_cons, NoDup_cons. intros [Hx Hl].
  rewrite filter_cons. case_decide; [|by apply IH].
  rewrite fmap_cons, NoDup_cons. split; [|by apply IH].
  intros Hin. apply Hx. apply list_elem_of_fmap in Hin as (y & -> & Hy).
  apply list_elem_of_filter in Hy as [_ Hy]. by apply list_elem_of_fmap_2.
Qed.

End Decoder.

(** ** Well-formed rows *)

Section WellFormedRows.

Implicit Types (c : cell) (cells : list cell) (body rest cur : jsstring).


Lemma encodeRow_cons_cons c c' cells :
  encodeRow (c :: c' :: cells)
  = encodeCell c ++ COMMA :: encodeRow (c' :: cells).
Proof. reflexivity. Qed.

(** *** In the row splitter *)





Lemma filter_all {A} (P : A → Prop) `{!∀ x, Decision (P x)} (l : list A) :
  Forall P l → filter P l = l.
Proof.
  induction 1 as [|x l Hx _ IH]; [done|].
  by rewrite filter_cons_True, IH.
Qed.


(** *** In the field splitter *)

Lemma fieldLoop_encodeCell c rest fs cur :
  plainCell c → head rest ≠ Some QUOTE →
  fieldLoop (encodeCell c ++ rest) (mkFieldState fs cur false)
  = fieldLoop rest (mkFieldState fs (cur ++ cellValue c) false).
Proof.
  destruct c as [f|body]; cbn [plainCell encodeCell cellValue]; intros Hc Hrest.
  - by apply fieldLoop_plain.
  - by apply fieldLoop_quoteField.
Qed.

(** A row of cells splits into the values of its cells. *)
Lemma fieldLoop_encodeRow cells : ∀ c acc cur,
  Forall plainCell (c :: cells) →
  fieldsOf (fieldLoop (encodeRow (c :: cells)) (mkFieldState acc cur false))
  = acc ++ (cur ++ cellValue c) :: (cellValue <$> cells).
Proof.
  induction cells as [|c' cells IH]; intros c acc cur Hcells;
    apply Forall_cons in Hcells as [Hc Hcells].
  - unfold encodeRow. cbn [fmap list_fmap join].
    rewrite <- (app_nil_r (encodeCell c)), fieldLoop_encodeCell by done.
    reflexivity.
  - rewrite encodeRow_cons_cons, fieldLoop_encodeCell by done.
    rewrite fieldLoop_comma, IH by done. by rewrite <- app_assoc.
Qed.

Lemma parseCsvRow_encodeRow c cells :
  Forall plainCell (c :: cells) →
  parseCsvRow (encodeRow (c :: cells)) = cellValue <$> (c :: cells).
Proof. intros Hcells. apply (fieldLoop_encodeRow cells c [] [] Hcells). Qed.

(** *** Trimming a row *)

Lemma trimStart_encodeCell c rest :
  rest = [] ∨ head rest = Some COMMA →
  trimStart (encodeCell c ++ rest) = encodeCell (trimCellStart c) ++ rest.
Proof.
  destruct c as [f|body]; cbn [encodeCell trimCellStart]; [|done].
  intros [->|Hrest].
  - by rewrite !app_nil_r.
  - destruct rest as [|x rest]; [done|]. injection Hrest as ->.
    by apply trimStart_app_nonws.
Qed.

Lemma trimStart_encodeRow cells :
  trimStart (encodeRow cells) = encodeRow (trimFirst cells).
Proof.
  destruct cells as [|c [|c' cells]]; [done|..].
  - unfold encodeRow. cbn [trimFirst fmap list_fmap join].
    rewrite <- (app_nil_r (encodeCell c)), trimStart_encodeCell by (by left).
    by rewrite app_nil_r.
  - cbn [trimFirst]. rewrite !encodeRow_cons_cons.
    by rewrite trimStart_encodeCell by (by right).
Qed.

Lemma trimEnd_encodeCell c : trimEnd (encodeCell c) = encodeCell (trimCellEnd c).
Proof.
  destruct c as [f|body]; cbn [encodeCell trimCellEnd]; [done|].
  unfold quoteField. rewrite app_comm_cons.
  by rewrite trimEnd_app_nonws.
Qed.

Lemma trimLast_cons_cons c c' cells :
  trimLast (c :: c' :: cells) = c :: trimLast (c' :: cells).
Proof. reflexivity. Qed.

Lemma trimLast_nonempty c cells :
  ∃ c' cells', trimLast (c :: cells) = c' :: cells'.
Proof. destruct cells; by eexists _, _. Qed.

Lemma trimEnd_encodeRow cells :
  trimEnd (encodeRow cells) = encodeRow (trimLast cells).
Proof.
  induction cells as [|c cells IH]; [done|]. destruct cells as [|c' cells].
  - apply trimEnd_encodeCell.
  - rewrite trimLast_cons_cons.
    destruct (trimLast_nonempty c' cells) as (d & rest & Hlast).
    rewrite Hlast in *. rewrite !encodeRow_cons_cons.
    rewrite trimEnd_app_nonws by done. by rewrite IH.
Qed.

(** Trimming a row is trimming its first and last cells. *)
Lemma trim_encodeRow cells : trim (encodeRow cells) = encodeRow (trimCells cells).
Proof. unfold trim, trimCells. by rewrite trimStart_encodeRow, trimEnd_encodeRow. Qed.

Lemma plainCell_trimCellStart c : plainCell c → plainCell (trimCellStart c).
Proof. destruct c; [apply plainField_trimStart|done]. Qed.

Lemma plainCell_trimCellEnd c : plainCell c → plainCell (trimCellEnd c).
Proof. destruct c; [apply plainField_trimEnd|done]. Qed.

Lemma plainCell_trimLast cells :
  Forall plainCell cells → Forall plainCell (trimLast cells).
Proof.
  induction cells as [|c cells IH]; [done|]. intros [Hc Hcells]%Forall_cons.
  destruct cells as [|c' cells].
  - constructor; [by apply plainCell_trimCellEnd|done].
  - rewrite trimLast_cons_cons. constructor; [done|by apply IH].
Qed.

Lemma plainCell_trimCells cells :
  Forall plainCell cells → Forall plainCell (trimCells cells).
Proof.
  intros Hcells. apply plainCell_trimLast. destruct cells as [|c cells]; [done|].
  apply Forall_cons in Hcells as [Hc Hcells].
  constructor; [by apply plainCell_trimCellStart|done].
Qed.

Lemma trimCells_nonempty c cells :
  ∃ c' cells', trimCells (c :: cells) = c' :: cells'.
Proof. apply trimLast_nonempty. Qed.

(** The values of a data row as the decoder reads them: those of its cells
    after the row is trimmed. *)
Lemma parseCsvRow_trim_encodeRow c cells :
  Forall plainCell (c :: cells) →
  parseCsvRow (trim (encodeRow (c :: cells)))
  = cellValue <$> trimCells (c :: cells).
Proof.
  intros Hcells. rewrite trim_encodeRow.
  pose proof (plainCell_trimCells _ Hcells) as Htrimmed.
  destruct (trimCells_nonempty c cells) as (c' & cells' & Heq).
  rewrite Heq in *. by apply parseCsvRow_encodeRow.
Qed.




End WellFormedRows.

(** * The claims of the specification *)




(** C2. Inside a quoted span of the field splitter, two consecutive quote
    characters add one literal quote to the current field and leave the
    splitter in the quoted state, while a quote that is not followed by a
    quote leaves the quoted state and adds nothing; the quoted row of the
    specification, He said hi with doubled quotes around hi, decodes to
    the single field that has one pair of literal quotes around hi. *)
Theorem C2_quoted_span_escapes fs cur rest :
  fieldLoop (QUOTE :: QUOTE :: rest) (mkFieldState fs cur true)
  = fieldLoop rest (mkFieldState fs (cur ++ [QUOTE]) true)
  ∧ (head rest ≠ Some QUOTE →
     fieldLoop (QUOTE :: rest) (mkFieldState fs cur true)
     = fieldLoop rest (mkFieldState fs cur false))
  ∧ parseCsvRow ([QUOTE] ++ str "He said " ++ [QUOTE; QUOTE] ++ str "hi"
                 ++ [QUOTE; QUOTE] ++ str "." ++ [QUOTE])
    = [str "He said " ++ [QUOTE] ++ str "hi" ++ [QUOTE] ++ str "."].
Proof.
  split; [apply fieldLoop_escaped_quote|].
  split; [apply fieldLoop_close|reflexivity].
Qed.

Lemma C2_quoted_span_escapes_witness :
  head (str "a") ≠ Some QUOTE
  ∧ fieldLoop (QUOTE :: str "a") (mkFieldState [] (str "x") true)
    = fieldLoop (str "a") (mkFieldState [] (str "x") false).
Proof.
  split; [key_neq|].
  apply (proj1 (proj2 (C2_quoted_span_escapes [] (str "x") (str "a")))).
  key_neq.
Defined.

(** C3. For every input, the decoder returns exactly the built records whose
    [rewritten_story] field is present and longer than one character after
    trimming, in their order; a record is in the output if and only if it was
    built from a data row and passes that test. *)
Theorem C3_body_filter data :
  ∃ records,
    buildStories (splitRows (normalize data)) = Some records
    ∧ parseCSV data = Some (filter bodyLongerThanOne records)
    ∧ ∀ story stories, parseCSV data = Some stories →
        (story ∈ stories ↔ story ∈ records ∧ bodyLongerThanOne story).
Proof.
  exists (built (splitRows (normalize data))).
  split; [apply buildStories_Some|]. split; [apply parseCSV_stages|].
  intros story stories. rewrite parseCSV_stages. intros [= <-].
  rewrite list_elem_of_filter. tauto.
Qed.

Lemma C3_body_filter_witness :
  ∃ story, parseCSV sampleFiltered = Some [story]
           ∧ bodyLongerThanOne story
           ∧ story !! str "title" = Some (VStr (str "one")).
Proof.
  destruct (C3_body_filter sampleFiltered) as (records & _ & _ & Hiff).
  set (headers := [str "title"; str "rewritten_story"]).
  exists (storyOf headers 0 (str "one,hello")).
  assert (parseCSV sampleFiltered = Some [storyOf headers 0 (str "one,hello")])
    as Hdata by (vm_compute; reflexivity).
  split; [exact Hdata|]. split; [|vm_compute; reflexivity].
  apply (Hiff _ _ Hdata). by left.
Defined.

(** C4. When the row splitter yields fewer than two rows the decoder returns
    the empty sequence and does not throw; an input without a newline (the
    empty input, or a header alone) is such an input. *)
Theorem C4_fewer_than_two_rows data :
  ((length (splitRows (normalize data)) < 2)%nat → parseCSV data = Some [])
  ∧ (LF ∉ data → (length (splitRows (normalize data)) < 2)%nat).
Proof.
  split.
  - intros Hlen. unfold parseCSV.
    by rewrite (proj2 (Nat.ltb_lt _ _) Hlen).
  - intros Hlf. apply splitRows_no_newline.
    intros Hin. by apply Hlf, elem_of_normalize.
Qed.

Lemma C4_fewer_than_two_rows_witness :
  (LF ∉ sampleHeader)
  ∧ (length (splitRows (normalize sampleHeader)) < 2)%nat
  ∧ parseCSV sampleHeader = Some [].
Proof.
  assert (LF ∉ sampleHeader) as Hlf by compute_done.
  pose proof (proj2 (C4_fewer_than_two_rows sampleHeader) Hlf) as Hlen.
  split; [exact Hlf|]. split; [exact Hlen|].
  exact (proj1 (C4_fewer_than_two_rows sampleHeader) Hlen).
Defined.

(** C5 (as the code has it). For a data row with fewer values than there are
    headers the record builder pads the values with empty strings up to the
    header count, keeps the values that are there, and does not throw; the
    record it builds holds the empty string under every text column the row
    does not reach. *)
Theorem C5_short_row_padded headers rowStr index :
  (length (parseCsvRow (trim rowStr)) < length headers)%nat →
  rowValues (length headers) rowStr
  = parseCsvRow (trim rowStr)
    ++ replicate (length headers - length (parseCsvRow (trim rowStr))) []
  ∧ length (rowValues (length headers) rowStr) = length headers
  ∧ ∃ story,
      buildStory headers rowStr index = Some story
      ∧ ∀ j h, headers !! j = Some h →
          (length (parseCsvRow (trim rowStr)) ≤ j)%nat →
          h ∉ drop (S j) headers → h ≠ str "__proto__" →
          derivedKey h = false → numericKey h = false → flagKey h = false →
          story !! h = Some (VStr []).
Proof.
  intros Hshort. split; [apply padValues_replicate|].
  split; [unfold rowValues; rewrite padValues_length; lia|].
  eexists. split; [apply buildStory_Some|].
  fold (storyOf headers index rowStr).
  intros j h Hj Hbeyond Hlast Hproto Hder Hnum Hflag.
  rewrite (storyOf_lookup _ _ _ j) by done.
  rewrite lookup_ge_None_2 by done. cbn [default from_option].
  unfold coerced. by rewrite Hnum, Hflag.
Qed.

(** Header [a,b,c] with the data row [x,y]: the record builder yields a
    record whose field [c] is the empty string. *)
Lemma C5_short_row_padded_witness :
  (length (parseCsvRow (trim (str "x,y")))
   < length [str "a"; str "b"; str "c"])%nat
  ∧ rowValues (length [str "a"; str "b"; str "c"]) (str "x,y")
    = [str "x"; str "y"; []]
  ∧ ∃ story, buildStory [str "a"; str "b"; str "c"] (str "x,y") 0 = Some story
             ∧ story !! str "c" = Some (VStr []).
Proof.
  assert (length (parseCsvRow (trim (str "x,y")))
          < length [str "a"; str "b"; str "c"])%nat
    as Hshort by (vm_compute; lia).
  destruct (C5_short_row_padded [str "a"; str "b"; str "c"] (str "x,y") 0 Hshort)
    as (Hvalues & _ & story & Hstory & Hfields).
  split; [exact Hshort|]. split; [exact Hvalues|].
  exists story. split; [exact Hstory|].
  apply (Hfields 2%nat (str "c"));
    first [reflexivity | key_neq | compute_done | (vm_compute; lia)].
Defined.

(** C5 does not hold as the specification states it: decoding header
    [a,b,c] with the data row [x,y] yields no record at all, the built
    record having no [rewritten_story] field. *)
Lemma C5_short_row_record_dropped :
  parseCSV sampleShort = Some []
  ∧ ¬ ∃ stories story,
        parseCSV sampleShort = Some stories ∧ story ∈ stories
        ∧ story !! str "c" = Some (VStr []).
Proof.
  assert (parseCSV sampleShort = Some []) as Hdata by reflexivity.
  split; [exact Hdata|]. intros (stories & story & Hs & Hin & _).
  rewrite Hdata in Hs. injection Hs as <-. by apply elem_of_nil in Hin.
Qed.

(** C6. In one decoded batch no two records have the same [id]. The [id] of
    a record is its author field, or [story] when that field is missing or
    empty, followed by [-] and the position of its data row, with every
    character outside [a-z], [A-Z], [0-9], [-] and [_] removed; so it holds
    only such characters. *)
Theorem C6_ids_distinct_and_clean data stories :
  parseCSV data = Some stories →
  NoDup ((λ story : jsobject, story !! str "id") <$> stories)
  ∧ ∃ records,
      buildStories (splitRows (normalize data)) = Some records
      ∧ Forall (λ story : jsobject,
          ∃ id index,
            records !! index = Some story
            ∧ story !! str "id" = Some (VStr id)
            ∧ id = sanitize (authorOrStory story ++ [MINUS] ++ natToString index)
            ∧ Forall (λ c, idChar c = true) id) stories.
Proof.
  rewrite parseCSV_stages. intros [= <-]. split.
  - apply (NoDup_fmap_filter idOf), built_ids_NoDup.
  - exists (built (splitRows (normalize data))).
    split; [apply buildStories_Some|].
    apply Forall_forall. intros story Hin.
    apply list_elem_of_filter in Hin as [_ Hin].
    apply list_elem_of_lookup in Hin as [index Hindex].
    pose proof Hindex as Hstory. unfold built in Hstory.
    apply list_lookup_imap_Some in Hstory as (rowStr & _ & ->).
    eexists _, index. split; [exact Hindex|].
    split; [apply storyOf_id_lookup|].
    split; [by rewrite authorOrStory_storyOf|]. apply sanitize_idChars.
Qed.

Lemma C6_ids_distinct_and_clean_witness :
  ∃ story story',
    parseCSV sampleAuthors = Some [story; story']
    ∧ story !! str "id" = Some (VStr (str "bob-0"))
    ∧ story' !! str "id" = Some (VStr (str "bob-1"))
    ∧ NoDup ((λ s : jsobject, s !! str "id") <$> [story; story']).
Proof.
  set (headers := [str "author"; str "rewritten_story"]).
  exists (storyOf headers 0 (str "bob,hello")),
         (storyOf headers 1 (str "bob,world")).
  assert (parseCSV sampleAuthors
          = Some [storyOf headers 0 (str "bob,hello");
                  storyOf headers 1 (str "bob,world")]) as Hdata
    by (vm_compute; reflexivity).
  split; [exact Hdata|].
  split; [vm_compute; reflexivity|]. split; [vm_compute; reflexivity|].
  exact (proj1 (C6_ids_distinct_and_clean sampleAuthors _ Hdata)).
Defined.

(** C7. The decoder returns normally on every input string, and so does the
    record builder on every row. A column whose value is missing from a short
    row holds the default of its kind (the empty string, zero, or false), a
    numeric column whose text does not parse holds zero, and a flag column
    whose text is not [true] in any letter case holds false. *)
Theorem C7_never_throws_defaults :
  (∀ data, ∃ stories, parseCSV data = Some stories)
  ∧ ∀ headers rowStr index,
      ∃ story, buildStory headers rowStr index = Some story
      ∧ ∀ j h, headers !! j = Some h → h ∉ drop (S j) headers →
          h ≠ str "__proto__" → derivedKey h = false →
          ((length (parseCsvRow (trim rowStr)) ≤ j)%nat →
             story !! h = Some (defaultValue h))
          ∧ (∀ s, parseCsvRow (trim rowStr) !! j = Some s →
               numericKey h = true → parseInt s = None →
               story !! h = Some (VNum 0))
          ∧ (∀ s, parseCsvRow (trim rowStr) !! j = Some s →
               flagKey h = true → toLowerCase s ≠ str "true" →
               story !! h = Some (VBool false)).
Proof.
  split.
  - intros data. eexists. apply parseCSV_stages.
  - intros headers rowStr index. eexists. split; [apply buildStory_Some|].
    fold (storyOf headers index rowStr).
    intros j h Hj Hlast Hproto Hder.
    rewrite (storyOf_lookup _ _ _ j) by done. repeat split.
    + intros Hshort. rewrite lookup_ge_None_2 by done.
      cbn [default from_option].
      by rewrite coerced_empty.
    + intros s -> Hnum Hnan. cbn [default from_option id]. unfold coerced.
      by rewrite Hnum, Hnan.
    + intros s -> Hflag Hne. cbn [default from_option id]. unfold coerced.
      destruct (numericKey h) eqn:Hnum.
      { apply numeric_not_flag in Hnum. congruence. }
      rewrite Hflag. unfold jsstring_eqb.
      by rewrite bool_decide_eq_false_2.
Qed.

Lemma C7_never_throws_defaults_witness :
  ∃ story, buildStory sampleDefaults (str "t,abc") 0 = Some story
           ∧ story !! str "score" = Some (VNum 0)
           ∧ story !! str "is_self" = Some (VBool false)
           ∧ story !! str "label" = Some (VStr []).
Proof.
  destruct (proj2 C7_never_throws_defaults sampleDefaults (str "t,abc") 0%nat)
    as (story & Hstory & Hfields).
  exists story. split; [exact Hstory|].
  split; [|split].
  - apply (Hfields 1%nat (str "score")) with (s := str "abc");
      first [reflexivity | key_neq | compute_done].
  - apply (Hfields 2%nat (str "is_self"));
      first [reflexivity | key_neq | compute_done | (vm_compute; lia)].
  - apply (Hfields 3%nat (str "label"));
      first [reflexivity | key_neq | compute_done | (vm_compute; lia)].
Defined.

(** C8 (as the code has it). The row splitter returns, in their original
    order, exactly the logical rows that are not empty or whitespace-only:
    every blank row is dropped, wherever it stands; the logical rows joined
    by newlines are the input text. *)
Theorem C8_rows_in_order_blank_dropped s :
  splitRows s = filter nonBlank (logicalRows s false)
  ∧ join LF (logicalRows s false) = s.
Proof.
  split; [|apply join_logicalRows].
  destruct (rowLoop_logicalRows s rowInit) as (row & others & Hl & Hr).
  cbn [rowInit rInQuotes rows currentRow app] in *. by rewrite Hl.
Qed.

(** C8 does not hold as the specification states it: the empty row between
    [a] and [b] is a logical row of the input and is missing from the
    splitter's output. *)
Lemma C8_interior_blank_row_dropped :
  logicalRows (normalize sampleBlankRow) false = [str "a"; []; str "b"]
  ∧ splitRows (normalize sampleBlankRow) = [str "a"; str "b"]
  ∧ [] ∉ splitRows (normalize sampleBlankRow).
Proof.
  split; [reflexivity|]. split; [reflexivity|].
  intros Hin. vm_compute in Hin.
  repeat (apply elem_of_cons in Hin as [Hin|Hin]; [discriminate Hin|]).
  by apply elem_of_nil in Hin.
Qed.

(** C9 (as the code has it). The field splitter itself trims nothing: a row
    of plain and quoted cells splits into exactly the values of its cells.
    The decoder trims the header names and also trims each data row as a
    whole before splitting it, so the values of a data row are those of its
    cells with only the leading whitespace of a plain first cell and the
    trailing whitespace of a plain last cell removed, and the record holds
    those values under its text columns. *)
Theorem C9_whitespace_kept_inside_row c cells :
  Forall plainCell (c :: cells) →
  parseCsvRow (encodeRow (c :: cells)) = cellValue <$> (c :: cells)
  ∧ parseCsvRow (trim (encodeRow (c :: cells)))
    = cellValue <$> trimCells (c :: cells)
  ∧ ∀ headers index j h v,
      headers !! j = Some h →
      (cellValue <$> trimCells (c :: cells)) !! j = Some v →
      h ∉ drop (S j) headers → h ≠ str "__proto__" →
      derivedKey h = false → numericKey h = false → flagKey h = false →
      ∃ story,
        buildStory headers (encodeRow (c :: cells)) index = Some story
        ∧ story !! h = Some (VStr v).
Proof.
  intros Hcells.
  pose proof (parseCsvRow_trim_encodeRow c cells Hcells) as Htrimmed.
  split; [by apply parseCsvRow_encodeRow|]. split; [done|].
  intros headers index j h v Hj Hv Hlast Hproto Hder Hnum Hflag.
  eexists. split; [apply buildStory_Some|].
  fold (storyOf headers index (encodeRow (c :: cells))).
  rewrite (storyOf_lookup _ _ _ j) by done. rewrite Htrimmed, Hv.
  cbn [default from_option id]. unfold coerced. by rewrite Hnum, Hflag.
Qed.

Lemma C9_whitespace_kept_inside_row_witness :
  Forall plainCell (Plain (str "  hello ") :: sampleCells)
  ∧ encodeRow (Plain (str "  hello ") :: sampleCells)
    = str "  hello , b ," ++ quoteField (str " q ") ++ str ", x  "
  ∧ parseCsvRow (encodeRow (Plain (str "  hello ") :: sampleCells))
    = [str "  hello "; str " b "; str " q "; str " x  "]
  ∧ parseCsvRow (trim (encodeRow (Plain (str "  hello ") :: sampleCells)))
    = [str "hello "; str " b "; str " q "; str " x"].
Proof.
  assert (Forall plainCell (Plain (str "  hello ") :: sampleCells)) as Hcells
    by solve_fields.
  destruct (C9_whitespace_kept_inside_row _ _ Hcells) as (Hraw & Htrimmed & _).
  split; [exact Hcells|]. split; [reflexivity|].
  split; [exact Hraw|exact Htrimmed].
Defined.

(** C9 does not hold as the specification states it: the data row
    [  hello,x  ] has the fields [  hello] and [x  ], and the decoded record
    holds [hello] and [x]. *)
Lemma C9_row_ends_trimmed :
  splitRows (normalize samplePadded)
  = [str "rewritten_story,label"; str "  hello,x  "; str "world,y"]
  ∧ parseCsvRow (str "  hello,x  ") = [str "  hello"; str "x  "]
  ∧ ∃ story story',
      parseCSV samplePadded = Some [story; story']
      ∧ story !! str "rewritten_story" = Some (VStr (str "hello"))
      ∧ story !! str "label" = Some (VStr (str "x")).
Proof.
  split; [reflexivity|]. split; [reflexivity|].
  set (headers := [str "rewritten_story"; str "label"]).
  exists (storyOf headers 0 (str "  hello,x  ")),
         (storyOf headers 1 (str "world,y")).
  split; [|split]; vm_compute; reflexivity.
Qed.

(** C10. Every record the decoder returns has [status] ['idle'],
    [isSelected] [false], and the two file names made of its own [id]
    followed by [_story.wav] and [_cover.wav]. *)
Theorem C10_initial_state data stories story :
  parseCSV data = Some stories → story ∈ stories →
  ∃ id, story !! str "id" = Some (VStr id)
    ∧ story !! str "status" = Some (VStr (str "idle"))
    ∧ story !! str "isSelected" = Some (VBool false)
    ∧ story !! str "audioFileName" = Some (VStr (id ++ str "_story.wav"))
    ∧ story !! str "coverAudioFileName" = Some (VStr (id ++ str "_cover.wav")).
Proof.
  rewrite parseCSV_stages. intros [= <-] Hin.
  apply list_elem_of_filter in Hin as [_ Hin]. unfold built in Hin.
  apply elem_of_lookup_imap_1 in Hin as (index & rowStr & -> & _).
  unfold storyOf. set (obj := assigned _ _ _ _).
  eexists. unfold derived.
  repeat split;
    repeat first [ apply lookup_insert_eq
                 | rewrite lookup_insert_ne by key_neq ].
Qed.

Lemma C10_initial_state_witness :
  parseCSV sampleOne
  = Some [storyOf [str "author"; str "rewritten_story"] 0 (str "bob,hello")]
  ∧ storyOf [str "author"; str "rewritten_story"] 0 (str "bob,hello")
    ∈ [storyOf [str "author"; str "rewritten_story"] 0 (str "bob,hello")]
  ∧ storyOf [str "author"; str "rewritten_story"] 0 (str "bob,hello")
      !! str "audioFileName"
    = Some (VStr (str "bob-0_story.wav"))
  ∧ storyOf [str "author"; str "rewritten_story"] 0 (str "bob,hello")
      !! str "status"
    = Some (VStr (str "idle")).
Proof.
  set (story := storyOf [str "author"; str "rewritten_story"] 0 (str "bob,hello")).
  assert (parseCSV sampleOne = Some [story]) as Hdata
    by (vm_compute; reflexivity).
  assert (story ∈ [story]) as Hin by (by left).
  destruct (C10_initial_state sampleOne [story] story Hdata Hin)
    as (id & Hid & Hstatus & _ & Haudio & _).
  split; [exact Hdata|]. split; [exact Hin|]. split; [|exact Hstatus].
  rewrite Haudio. do 2 f_equal.
  assert (story !! str "id" = Some (VStr (str "bob-0"))) as Hid'
    by (vm_compute; reflexivity).
  rewrite Hid in Hid'. by injection Hid' as ->.
Defined.

(** * Further properties of the code *)

(** ** [chunkText] *)

Section ChunkText.

Implicit Types (s text remaining : jsstring) (chunks out : list jsstring)
  (maxLength : Z).

Lemma trimStart_length s : (length (trimStart s) ≤ length s)%nat.
Proof.
  destruct (trimStart_decomp s) as (pre & Hs & _).
  rewrite Hs at 2. rewrite length_app. lia.
Qed.

Lemma trimEnd_length s : (length (trimEnd s) ≤ length s)%nat.
Proof.
  destruct (trimEnd_decomp s) as (post & Hs & _).
  rewrite Hs at 2. rewrite length_app. lia.
Qed.

Lemma trim_length s : (length (trim s) ≤ length s)%nat.
Proof.
  unfold trim. pose proof (trimEnd_length (trimStart s)).
  pose proof (trimStart_length s). lia.
Qed.

Lemma inked_app a b : inked (a ++ b) = inked a ++ inked b.
Proof. apply filter_app. Qed.

Lemma inked_whitespace s :
  Forall (λ c, isWhiteSpace c = true) s → inked s = [].
Proof.
  induction 1 as [|c s Hc _ IH]; [done|].
  unfold inked. rewrite filter_cons_False by (by rewrite Hc). apply IH.
Qed.

Lemma inked_trimStart s : inked (trimStart s) = inked s.
Proof.
  destruct (trimStart_decomp s) as (pre & Hs & Hpre).
  rewrite Hs at 2. by rewrite inked_app, (inked_whitespace pre).
Qed.

Lemma inked_trimEnd s : inked (trimEnd s) = inked s.
Proof.
  destruct (trimEnd_decomp s) as (post & Hs & Hpost).
  rewrite Hs at 2. by rewrite inked_app, (inked_whitespace post), app_nil_r.
Qed.

(** Trimming removes whitespace only. *)
Lemma inked_trim s : inked (trim s) = inked s.
Proof. unfold trim. by rewrite inked_trimEnd, inked_trimStart. Qed.

Lemma lastIndexFrom_bounds c s : ∀ i found,
  (found < i)%Z →
  (found ≤ lastIndexFrom c s i found < i + len s)%Z.
Proof.
  induction s as [|x s IH]; intros i found Hlt; cbn [lastIndexFrom].
  - unfold len. cbn. lia.
  - unfold len in *. cbn [length]. destruct (x =? c).
    + pose proof (IH (i + 1)%Z i ltac:(lia)). lia.
    + pose proof (IH (i + 1)%Z found ltac:(lia)). lia.
Qed.

Lemma lastIndexOf_bounds c s : (-1 ≤ lastIndexOf c s < len s)%Z.
Proof.
  pose proof (lastIndexFrom_bounds c s 0 (-1)) as H. unfold lastIndexOf. lia.
Qed.

Lemma lastIndexFrom_absent c s : ∀ i found,
  c ∉ s → lastIndexFrom c s i found = found.
Proof.
  induction s as [|x s IH]; intros i found Hc; [done|].
  apply not_elem_of_cons in Hc as [Hx Hc]. cbn [lastIndexFrom].
  rewrite (proj2 (N.eqb_neq x c)) by done. by apply IH.
Qed.

(** One turn of the loop on a text longer than [maxLength]. *)
Lemma chunkLoop_step fuel remaining maxLength chunks :
  (maxLength < len remaining)%Z → (0 < len remaining)%Z →
  chunkLoop (S fuel) remaining maxLength chunks
  = let lastSpace := lastIndexOf SPACE (substringTo remaining maxLength) in
    let splitIndex := if (0 <? lastSpace)%Z then lastSpace else maxLength in
    chunkLoop fuel (trim (substringFrom remaining splitIndex)) maxLength
      (chunks ++ [substringTo remaining splitIndex]).
Proof.
  intros Hlong Hpos. cbn [chunkLoop].
  rewrite (proj2 (Z.ltb_lt _ _) Hpos).
  by rewrite (proj2 (Z.leb_gt _ _) Hlong).
Qed.

(** Where the loop cuts: at least one character, at most [maxLength]. *)
Lemma splitIndex_bounds remaining maxLength :
  (0 < maxLength)%Z → (maxLength < len remaining)%Z →
  let lastSpace := lastIndexOf SPACE (substringTo remaining maxLength) in
  let splitIndex := if (0 <? lastSpace)%Z then lastSpace else maxLength in
  (1 ≤ splitIndex ≤ maxLength)%Z.
Proof.
  intros Hpos Hlong lastSpace splitIndex.
  pose proof (lastIndexOf_bounds SPACE (substringTo remaining maxLength)) as Hb.
  fold lastSpace in Hb. unfold substringTo, len in *.
  rewrite length_take in Hb. unfold splitIndex.
  destruct (0 <? lastSpace)%Z eqn:Hsp; [apply Z.ltb_lt in Hsp|]; lia.
Qed.

(** The loop with enough fuel: it returns, its chunks are within the bound,
    and their non-whitespace characters are those of the text. *)
Lemma chunkLoop_returns maxLength : (0 < maxLength)%Z → ∀ fuel remaining chunks,
  (length remaining < fuel)%nat →
  ∃ out,
    chunkLoop fuel remaining maxLength chunks = Some (chunks ++ out)
    ∧ Forall (λ c, (1 ≤ len c ≤ maxLength)%Z) out
    ∧ inked (concat out) = inked remaining.
Proof.
  intros Hpos. induction fuel as [|fuel IH]; intros remaining chunks Hfuel; [lia|].
  destruct (decide (0 < len remaining)%Z) as [Hne|He].
  - destruct (decide (len remaining ≤ maxLength)%Z) as [Hfit|Hlong].
    + exists [remaining]. cbn [chunkLoop].
      rewrite (proj2 (Z.ltb_lt _ _) Hne), (proj2 (Z.leb_le _ _) Hfit).
      split; [done|]. split; [|by cbn; rewrite app_nil_r].
      constructor; [lia|done].
    + rewrite chunkLoop_step by lia.
      pose proof (splitIndex_bounds remaining maxLength Hpos ltac:(lia)) as Hb.
      cbv zeta in *.
      set (splitIndex := if (0 <? _)%Z then _ else maxLength) in *.
      destruct (IH (trim (substringFrom remaining splitIndex))
                   (chunks ++ [substringTo remaining splitIndex])) as (out & Hout & Hlen & Hink).
      { pose proof (trim_length (substringFrom remaining splitIndex)) as Ht.
        unfold substringFrom in *. rewrite length_drop in Ht. unfold len in *. lia. }
      exists (substringTo remaining splitIndex :: out).
      rewrite Hout, <- app_assoc. split; [done|]. split.
      * constructor; [|done]. unfold substringTo, len in *.
        rewrite length_take. lia.
      * cbn [concat]. rewrite inked_app, Hink, inked_trim, <- inked_app.
        unfold substringTo, substringFrom. by rewrite take_drop.
  - exists []. cbn [chunkLoop].
    rewrite (proj2 (Z.ltb_ge _ _)) by lia. rewrite app_nil_r.
    split; [done|]. split; [done|].
    unfold len in He. destruct remaining; [done|cbn in He; lia].
Qed.

(** More fuel does not change a result. *)
Lemma chunkLoop_more_fuel maxLength : ∀ fuel remaining chunks out,
  chunkLoop fuel remaining maxLength chunks = Some out →
  chunkLoop (S fuel) remaining maxLength chunks = Some out.
Proof.
  induction fuel as [|fuel IH]; intros remaining chunks out Hout; [done|].
  cbn [chunkLoop] in Hout. change (chunkLoop (S (S fuel)) remaining maxLength chunks)
    with (if (0 <? len remaining)%Z then
            if (len remaining <=? maxLength)%Z
            then Some (chunks ++ [remaining])
            else
              let chunk := substringTo remaining maxLength in
              let lastSpace := lastIndexOf SPACE chunk in
              let splitIndex := if (0 <? lastSpace)%Z then lastSpace else maxLength in
              let chunk := substringTo remaining splitIndex in
              chunkLoop (S fuel) (trim (substringFrom remaining splitIndex))
                maxLength (chunks ++ [chunk])
          else Some chunks).
  destruct (0 <? len remaining)%Z; [|done].
  destruct (len remaining <=? maxLength)%Z; [done|]. by apply IH.
Qed.

Lemma chunkLoop_fuel_le maxLength fuel fuel' remaining chunks out :
  (fuel ≤ fuel')%nat →
  chunkLoop fuel remaining maxLength chunks = Some out →
  chunkLoop fuel' remaining maxLength chunks = Some out.
Proof.
  induction 1 as [|fuel' _ IH]; [done|]. intros Hout.
  by apply chunkLoop_more_fuel, IH.
Qed.

(** Whatever the loop returns keeps the non-whitespace characters. *)
Lemma chunkLoop_inked maxLength : ∀ fuel remaining chunks result,
  chunkLoop fuel remaining maxLength chunks = Some result →
  inked (concat result) = inked (concat chunks) ++ inked remaining.
Proof.
  induction fuel as [|fuel IH]; intros remaining chunks result Hres; [done|].
  cbn [chunkLoop] in Hres. destruct (0 <? len remaining)%Z eqn:Hne.
  - destruct (len remaining <=? maxLength)%Z.
    + injection Hres as <-. rewrite concat_app, inked_app. cbn [concat].
      by rewrite app_nil_r.
    + cbv zeta in Hres. apply IH in Hres. rewrite Hres.
      rewrite concat_app, inked_app, inked_trim, <- app_assoc, <- inked_app.
      cbn [concat]. rewrite app_nil_r. unfold substringTo, substringFrom.
      by rewrite take_drop.
  - injection Hres as <-. apply Z.ltb_ge in Hne. unfold len in Hne.
    destruct remaining; [by rewrite app_nil_r|cbn in Hne; lia].
Qed.

End ChunkText.

(** X1. For a positive [maxLength], [chunkText] returns once its loop has
    run at most as many times as the text has characters, and every chunk it
    returns has at least one and at most [maxLength] characters. *)
Theorem X1_chunkText_returns_bounded text maxLength :
  (0 < maxLength)%Z →
  ∃ chunks,
    (∀ fuel, (length text < fuel)%nat →
             chunkText fuel text maxLength = Some chunks)
    ∧ Forall (λ c, (1 ≤ len c ≤ maxLength)%Z) chunks.
Proof.
  intros Hpos. unfold chunkText.
  destruct text as [|x text]; [by exists []|].
  cbn [nonEmpty negb orb].
  replace (len (x :: text) =? 0)%Z with false
    by (symmetry; apply Z.eqb_neq; unfold len; cbn; lia).
  destruct (len (x :: text) <=? maxLength)%Z eqn:Hfit.
  - exists [x :: text]. split; [done|]. apply Z.leb_le in Hfit.
    constructor; [|done]. unfold len in *. cbn [length] in *. lia.
  - destruct (chunkLoop_returns maxLength Hpos (S (length (x :: text)))
                (x :: text) []) as (out & Hout & Hlen & _); [lia|].
    exists out. split; [|done]. intros fuel Hfuel.
    eapply chunkLoop_fuel_le; [|exact Hout]. lia.
Qed.

Lemma X1_chunkText_returns_bounded_witness :
  (0 < 6)%Z
  ∧ chunkText 16 (str "hello big world") 6
    = Some [str "hello"; str "big"; str "world"].
Proof.
  assert (0 < 6)%Z as Hpos by lia. split; [exact Hpos|].
  destruct (X1_chunkText_returns_bounded (str "hello big world") 6 Hpos)
    as (chunks & Hchunks & _).
  rewrite (Hchunks 16%nat) by (vm_compute; lia).
  rewrite <- (Hchunks 20%nat) by (vm_compute; lia). reflexivity.
Defined.

(** X2. Whatever [chunkText] returns, the chunks put end to end hold the
    non-whitespace characters of the text, all of them, once each and in
    order: cutting only ever drops whitespace. *)
Theorem X2_chunkText_keeps_content fuel text maxLength chunks :
  chunkText fuel text maxLength = Some chunks →
  inked (concat chunks) = inked text.
Proof.
  unfold chunkText. destruct (negb (nonEmpty text) || _) eqn:Hempty.
  - intros [= <-]. apply orb_true_iff in Hempty as [Hempty|Hempty].
    + by destruct text.
    + apply Z.eqb_eq in Hempty. unfold len in Hempty. by destruct text.
  - destruct (len text <=? maxLength)%Z.
    + intros [= <-]. cbn. by rewrite app_nil_r.
    + intros Hloop. by apply chunkLoop_inked in Hloop.
Qed.

Lemma X2_chunkText_keeps_content_witness :
  chunkText 16 (str "hello   big world  ") 6
  = Some [str "hello"; str "big"; str "world"]
  ∧ inked (concat [str "hello"; str "big"; str "world"])
    = inked (str "hello   big world  ").
Proof.
  assert (chunkText 16 (str "hello   big world  ") 6
          = Some [str "hello"; str "big"; str "world"]) as Hchunks
    by reflexivity.
  split; [exact Hchunks|].
  exact (X2_chunkText_keeps_content _ _ _ _ Hchunks).
Defined.

(** ** [chunkText] on words separated by single spaces *)

Section ChunkWords.

Implicit Types (s w text : jsstring) (words chunks out : list jsstring)
  (groups : list (list jsstring)) (maxLength : Z).

Lemma trimStart_fixed s :
  (∀ c, head s = Some c → isWhiteSpace c = false) → trimStart s = s.
Proof. destruct s as [|c s]; [done|]. intros H. cbn. by rewrite (H c). Qed.

Lemma trimEnd_fixed s :
  (∀ c, last s = Some c → isWhiteSpace c = false) → trimEnd s = s.
Proof.
  intros H. unfold trimEnd. rewrite trimStart_fixed.
  - apply reverse_involutive.
  - intros c. rewrite head_reverse. apply H.
Qed.

Lemma trim_fixed s :
  (∀ c, head s = Some c → isWhiteSpace c = false) →
  (∀ c, last s = Some c → isWhiteSpace c = false) → trim s = s.
Proof.
  intros Hhead Hlast. unfold trim. rewrite trimStart_fixed by done.
  by apply trimEnd_fixed.
Qed.

Lemma inkedWord_no_space w : inkedWord w → SPACE ∉ w.
Proof.
  intros [_ Hw] Hin. rewrite Forall_forall in Hw. by specialize (Hw _ Hin).
Qed.

Lemma head_join w words c :
  inkedWord w → head (join SPACE (w :: words)) = Some c →
  isWhiteSpace c = false.
Proof.
  intros [Hne Hw]. destruct w as [|x w]; [done|].
  destruct words; cbn; intros [= <-]; by apply Forall_cons in Hw as [Hx _].
Qed.

Lemma last_join words : ∀ w c,
  Forall inkedWord (w :: words) → last (join SPACE (w :: words)) = Some c →
  isWhiteSpace c = false.
Proof.
  induction words as [|w' words IH]; intros w c Hwords.
  - apply Forall_cons in Hwords as [[_ Hw] _]. cbn [join]. intros Hlast.
    apply last_Some_elem_of in Hlast. rewrite Forall_forall in Hw. by apply Hw.
  - apply Forall_cons in Hwords as [_ Hwords].
    rewrite join_cons_cons, last_app, last_cons.
    destruct (last (join SPACE (w' :: words))) as [d|] eqn:Hd.
    + intros [= <-]. by apply (IH w' d).
    + exfalso. assert (join SPACE (w' :: words) ≠ []) as Hne.
      { apply Forall_cons in Hwords as [[Hne _] _].
        destruct words; [done|]. rewrite join_cons_cons. by destruct w'. }
      apply last_is_Some in Hne as [d Hd']. congruence.
Qed.

(** Words joined by single spaces have no outer whitespace. *)
Lemma trim_join_words words :
  Forall inkedWord words → trim (join SPACE words) = join SPACE words.
Proof.
  intros Hwords. destruct words as [|w words]; [done|].
  apply trim_fixed; intros c Hc.
  - apply Forall_cons in Hwords as [Hw _]. by eapply head_join.
  - by eapply last_join.
Qed.

Lemma length_join_cons w w' words :
  length (join SPACE (w :: w' :: words))
  = (length w + S (length (join SPACE (w' :: words))))%nat.
Proof. rewrite join_cons_cons, length_app. reflexivity. Qed.

(** A space of the joined text stands between two words. *)
Lemma join_split_at_space words : ∀ p,
  Forall inkedWord words → join SPACE words !! p = Some SPACE →
  ∃ k, (0 < k < length words)%nat
       ∧ take p (join SPACE words) = join SPACE (take k words)
       ∧ drop p (join SPACE words) = SPACE :: join SPACE (drop k words).
Proof.
  induction words as [|w words IH]; intros p Hwords Hp; [done|].
  apply Forall_cons in Hwords as [Hw Hwords].
  pose proof (inkedWord_no_space w Hw) as Hnosp.
  destruct words as [|w' words].
  - exfalso. apply Hnosp. by eapply list_elem_of_lookup_2.
  - rewrite join_cons_cons in *.
    destruct (decide (p < length w)%nat) as [Hlt|Hge].
    { exfalso. apply Hnosp. rewrite lookup_app_l in Hp by done.
      by eapply list_elem_of_lookup_2. }
    destruct (decide (p = length w)) as [->|Hne].
    + exists 1%nat. cbn [length take drop]. split; [lia|].
      by rewrite take_app_length, drop_app_length.
    + rewrite lookup_app_r in Hp by lia.
      destruct (p - length w)%nat as [|p'] eqn:Hp'; [lia|]. cbn in Hp.
      destruct (IH p' Hwords Hp) as (k & Hk & Htake & Hdrop).
      exists (S k). cbn [length] in *. split; [lia|].
      replace p with (length w + S p')%nat by lia.
      rewrite take_app_add, drop_app_add. cbn [take drop].
      rewrite Htake, Hdrop. split; [|done].
      destruct k as [|k]; [lia|]. reflexivity.
Qed.

Lemma lastIndexFrom_found c s : ∀ i found,
  (found < i)%Z →
  lastIndexFrom c s i found = found
  ∨ ((i ≤ lastIndexFrom c s i found)%Z
     ∧ s !! Z.to_nat (lastIndexFrom c s i found - i) = Some c).
Proof.
  induction s as [|x s IH]; intros i found Hlt; [by left|].
  cbn [lastIndexFrom]. destruct (x =? c) eqn:Hx.
  - apply N.eqb_eq in Hx. subst x. right.
    destruct (IH (i + 1)%Z i ltac:(lia)) as [->|[Hle Hc]].
    + split; [lia|]. by rewrite Z.sub_diag.
    + split; [lia|].
      replace (Z.to_nat (lastIndexFrom c s (i + 1) i - i))
        with (S (Z.to_nat (lastIndexFrom c s (i + 1) i - (i + 1)))) by lia.
      done.
  - destruct (IH (i + 1)%Z found ltac:(lia)) as [->|[Hle Hc]]; [by left|].
    right. split; [lia|].
    replace (Z.to_nat (lastIndexFrom c s (i + 1) found - i))
      with (S (Z.to_nat (lastIndexFrom c s (i + 1) found - (i + 1)))) by lia.
    done.
Qed.

(** A non-negative answer of [lastIndexOf] is an index of the character. *)
Lemma lastIndexOf_found c s :
  (0 ≤ lastIndexOf c s)%Z → s !! Z.to_nat (lastIndexOf c s) = Some c.
Proof.
  intros Hpos. unfold lastIndexOf in *.
  destruct (lastIndexFrom_found c s 0 (-1) ltac:(lia)) as [Heq|[_ Hc]]; [lia|].
  by rewrite Z.sub_0_r in Hc.
Qed.

Lemma lastIndexFrom_last c s : ∀ i found k,
  (found < i)%Z → s !! k = Some c →
  (i + Z.of_nat k ≤ lastIndexFrom c s i found)%Z.
Proof.
  induction s as [|x s IH]; intros i found k Hlt Hk; [done|].
  cbn [lastIndexFrom]. destruct k as [|k].
  - injection Hk as ->. rewrite N.eqb_refl.
    pose proof (lastIndexFrom_bounds c s (i + 1) i ltac:(lia)). lia.
  - cbn in Hk. destruct (x =? c).
    + pose proof (IH (i + 1)%Z i k ltac:(lia) Hk). lia.
    + pose proof (IH (i + 1)%Z found k ltac:(lia) Hk). lia.
Qed.

(** No occurrence of the character lies beyond the answer of
    [lastIndexOf]. *)
Lemma lastIndexOf_last c s k :
  s !! k = Some c → (Z.of_nat k ≤ lastIndexOf c s)%Z.
Proof.
  intros Hk. pose proof (lastIndexFrom_last c s 0 (-1) k ltac:(lia) Hk).
  unfold lastIndexOf. lia.
Qed.

(** Where the loop cuts a text of words that is longer than [maxLength]:
    after some of the words, at the space that follows them. *)
Lemma splitIndex_between_words maxLength words :
  (0 < maxLength)%Z →
  Forall inkedWord words → Forall (λ w, (len w ≤ maxLength)%Z) words →
  (maxLength < len (join SPACE words))%Z →
  let lastSpace :=
    lastIndexOf SPACE (substringTo (join SPACE words) maxLength) in
  let splitIndex := if (0 <? lastSpace)%Z then lastSpace else maxLength in
  ∃ k, (0 < k < length words)%nat
       ∧ substringTo (join SPACE words) splitIndex = join SPACE (take k words)
       ∧ substringFrom (join SPACE words) splitIndex
         = SPACE :: join SPACE (drop k words).
Proof.
  intros Hpos Hwords Hshort Hlong lastSpace splitIndex.
  unfold substringTo, substringFrom in *.
  set (text := join SPACE words) in *.
  set (m := Z.to_nat maxLength) in *.
  pose proof (lastIndexOf_bounds SPACE (take m text)) as Hb.
  fold lastSpace in Hb. unfold len in Hb, Hlong. rewrite length_take in Hb.
  destruct (0 <? lastSpace)%Z eqn:Hsp; subst splitIndex.
  - apply Z.ltb_lt in Hsp.
    pose proof (lastIndexOf_found SPACE (take m text) ltac:(fold lastSpace; lia))
      as Hfound. fold lastSpace in Hfound.
    rewrite lookup_take_lt in Hfound by lia.
    by apply join_split_at_space.
  - apply Z.ltb_ge in Hsp.
    destruct words as [|w words]; [cbn in Hlong; lia|].
    apply Forall_cons in Hwords as [Hw Hwords].
    apply Forall_cons in Hshort as [Hwlen _].
    destruct words as [|w' words].
    { cbn [join] in text. unfold len in Hwlen. subst text. lia. }
    exists 1%nat. cbn [length take drop]. split; [lia|].
    assert (length w = m) as Hm.
    { destruct (decide (length w < m)%nat) as [Hlt|Hge];
        [|unfold len in Hwlen; lia].
      exfalso. assert (take m text !! length w = Some SPACE) as Hspace.
      { rewrite lookup_take_lt by done. subst text.
        rewrite join_cons_cons. by rewrite list_lookup_middle. }
      apply lastIndexOf_last in Hspace. fold lastSpace in Hspace.
      destruct Hw as [Hne _]. destruct w; [done|]. cbn [length] in Hspace.
      lia. }
    fold m. subst text. rewrite join_cons_cons, <- Hm.
    by rewrite take_app_length, drop_app_length.
Qed.

(** The loop on a text of words: each chunk is a group of whole words. *)
Lemma chunkLoop_words maxLength : (0 < maxLength)%Z → ∀ fuel words chunks,
  Forall inkedWord words → Forall (λ w, (len w ≤ maxLength)%Z) words →
  (length (join SPACE words) < fuel)%nat →
  ∃ groups,
    chunkLoop fuel (join SPACE words) maxLength chunks
    = Some (chunks ++ (join SPACE <$> groups))
    ∧ concat groups = words ∧ Forall (λ g, g ≠ []) groups.
Proof.
  intros Hpos. induction fuel as [|fuel IH]; intros words chunks Hwords Hshort Hfuel;
    [lia|].
  set (text := join SPACE words) in *.
  destruct (decide (0 < len text)%Z) as [Hne|He].
  - assert (words ≠ []) as Hnonempty
      by (intros ->; unfold text, len in Hne; cbn in Hne; lia).
    destruct (decide (len text ≤ maxLength)%Z) as [Hfit|Hlong].
    + exists [words]. cbn [chunkLoop].
      rewrite (proj2 (Z.ltb_lt _ _) Hne), (proj2 (Z.leb_le _ _) Hfit).
      split; [done|]. split; [by cbn; rewrite app_nil_r|].
      by constructor.
    + rewrite chunkLoop_step by lia.
      destruct (splitIndex_between_words maxLength words Hpos Hwords Hshort
                  ltac:(fold text; lia)) as (k & Hk & Htake & Hdrop).
      cbv zeta in *. fold text in Htake, Hdrop. rewrite Htake, Hdrop.
      assert (trim (SPACE :: join SPACE (drop k words)) = join SPACE (drop k words))
        as ->.
      { unfold trim. change (trimStart (SPACE :: ?s)) with (trimStart s).
        apply trim_join_words. by apply Forall_drop. }
      destruct (IH (drop k words) (chunks ++ [join SPACE (take k words)]))
        as (groups & Hout & Hcat & Hgroups).
      { by apply Forall_drop. }
      { by apply Forall_drop. }
      { assert (length text = length (join SPACE (take k words))
                              + S (length (join SPACE (drop k words))))%nat.
        { rewrite <- (take_drop (Z.to_nat
            (if (0 <? lastIndexOf SPACE (substringTo text maxLength))%Z
             then lastIndexOf SPACE (substringTo text maxLength)
             else maxLength)) text) at 1.
          unfold substringTo, substringFrom in *. rewrite length_app.
          by rewrite Htake, Hdrop. }
        lia. }
      exists (take k words :: groups). rewrite Hout, <- app_assoc.
      split; [done|]. split; [by cbn; rewrite Hcat, take_drop|].
      constructor; [|done]. destruct words; [done|].
      destruct k; [lia|done].
  - exists []. cbn [chunkLoop]. rewrite (proj2 (Z.ltb_ge _ _)) by lia.
    rewrite app_nil_r. split; [done|]. split; [|done].
    destruct words as [|w words]; [done|]. exfalso.
    apply Forall_cons in Hwords as [[Hw _] _]. unfold len in He.
    subst text. destruct words; [cbn in He|rewrite length_join_cons in He];
      destruct w; cbn in He; try done; lia.
Qed.

End ChunkWords.

Section ChunkTheorems.

Implicit Types (s w text : jsstring) (words chunks out : list jsstring)
  (groups : list (list jsstring)) (maxLength : Z).

Lemma join_app sep (x y : jsstring) (l k : list jsstring) :
  join sep ((x :: l) ++ y :: k) = join sep (x :: l) ++ sep :: join sep (y :: k).
Proof.
  revert x. induction l as [|z l IH]; intros x; [done|].
  change ((x :: z :: l) ++ y :: k) with (x :: (z :: l) ++ y :: k).
  cbn [app]. rewrite !join_cons_cons, <- app_assoc. cbn [app].
  do 2 f_equal. apply (IH z).
Qed.

(** Joining groups that were each joined is joining all their members. *)
Lemma join_groups sep groups :
  Forall (λ g, g ≠ []) groups →
  join sep (join sep <$> groups) = join sep (concat groups).
Proof.
  induction 1 as [|g groups Hg Hgroups IH]; [done|].
  destruct groups as [|g' groups].
  - cbn. by rewrite app_nil_r.
  - change (join sep <$> g :: g' :: groups)
      with (join sep g :: join sep g' :: (join sep <$> groups)).
    rewrite join_cons_cons. change (join sep g' :: (join sep <$> groups))
      with (join sep <$> g' :: groups). rewrite IH.
    apply Forall_cons in Hgroups as [Hg' _].
    destruct g as [|x g]; [done|]. destruct g' as [|y g']; [done|].
    cbn [concat]. change ((y :: g') ++ concat groups) with (y :: g' ++ concat groups).
    by rewrite join_app.
Qed.

Lemma trim_inked_fixed s :
  Forall (λ c, isWhiteSpace c = false) s → trim s = s.
Proof.
  intros Hs. rewrite Forall_forall in Hs. apply trim_fixed; intros c Hc.
  - apply Hs. destruct s; [done|]. injection Hc as ->. by left.
  - apply Hs. by apply last_Some_elem_of.
Qed.

(** The loop on a text without whitespace cuts every [maxLength]
    characters. *)
Lemma chunkLoop_hard_split maxLength : (0 < maxLength)%Z → ∀ fuel remaining chunks,
  Forall (λ c, isWhiteSpace c = false) remaining →
  (length remaining < fuel)%nat →
  ∃ out,
    chunkLoop fuel remaining maxLength chunks = Some (chunks ++ out)
    ∧ concat out = remaining
    ∧ ∀ i c, out !! i = Some c → (S i < length out)%nat → len c = maxLength.
Proof.
  intros Hpos. induction fuel as [|fuel IH]; intros remaining chunks Hink Hfuel;
    [lia|].
  destruct (decide (0 < len remaining)%Z) as [Hne|He].
  - destruct (decide (len remaining ≤ maxLength)%Z) as [Hfit|Hlong].
    + exists [remaining]. cbn [chunkLoop].
      rewrite (proj2 (Z.ltb_lt _ _) Hne), (proj2 (Z.leb_le _ _) Hfit).
      split; [done|]. split; [by cbn; rewrite app_nil_r|].
      intros i c _ Hi. cbn in Hi. lia.
    + rewrite chunkLoop_step by lia. cbv zeta.
      assert (lastIndexOf SPACE (substringTo remaining maxLength) = (-1)%Z) as ->.
      { apply lastIndexFrom_absent. intros Hin.
        apply elem_of_take in Hin as (i & Hi & _).
        apply list_elem_of_lookup_2 in Hi. rewrite Forall_forall in Hink.
        by specialize (Hink _ Hi). }
      cbn [Z.ltb Z.compare]. unfold substringTo, substringFrom.
      rewrite trim_inked_fixed by (by apply Forall_drop).
      destruct (IH (drop (Z.to_nat maxLength) remaining)
                   (chunks ++ [take (Z.to_nat maxLength) remaining]))
        as (out & Hout & Hcat & Hlen).
      { by apply Forall_drop. }
      { rewrite length_drop. unfold len in *. lia. }
      exists (take (Z.to_nat maxLength) remaining :: out).
      rewrite Hout, <- app_assoc. split; [done|].
      split; [by cbn; rewrite Hcat, take_drop|].
      intros [|i] c Hc Hi.
      * injection Hc as <-. unfold len in *. rewrite length_take. lia.
      * cbn in Hc, Hi. apply (Hlen i c Hc). lia.
  - exists []. cbn [chunkLoop]. rewrite (proj2 (Z.ltb_ge _ _)) by lia.
    rewrite app_nil_r. split; [done|]. split; [|done].
    unfold len in He. destruct remaining; [done|cbn in He; lia].
Qed.

(** With a non-positive [maxLength] the loop goes round without an end on
    a text that has no outer whitespace. *)
Lemma chunkLoop_stuck maxLength text : (maxLength ≤ 0)%Z →
  text ≠ [] → trim text = text →
  ∀ fuel chunks, chunkLoop fuel text maxLength chunks = None.
Proof.
  intros Hmax Hne Htrim. induction fuel as [|fuel IH]; intros chunks; [done|].
  assert (0 < len text)%Z as Hpos
    by (unfold len; destruct text; [done|cbn; lia]).
  rewrite chunkLoop_step by lia. cbv zeta.
  unfold substringTo, substringFrom.
  replace (Z.to_nat maxLength) with 0%nat by lia. rewrite take_0.
  change (lastIndexOf SPACE []) with (-1)%Z. cbn [Z.ltb Z.compare].
  replace (Z.to_nat maxLength) with 0%nat by lia.
  rewrite take_0, drop_0, Htrim. apply IH.
Qed.

End ChunkTheorems.

(** X3. Splitting respects word boundaries: when the text is made of words
    separated by single spaces and no word is longer than a positive
    [maxLength], [chunkText] returns, each chunk is a run of one or more
    whole words joined by spaces, the runs taken in order make up all the
    words, and the chunks joined by spaces are the text. *)
Theorem X3_chunkText_whole_words words maxLength :
  (0 < maxLength)%Z →
  Forall inkedWord words → Forall (λ w, (len w ≤ maxLength)%Z) words →
  ∃ groups,
    (∀ fuel, (length (join SPACE words) < fuel)%nat →
       chunkText fuel (join SPACE words) maxLength
       = Some (join SPACE <$> groups))
    ∧ concat groups = words
    ∧ Forall (λ g, g ≠ []) groups
    ∧ join SPACE (join SPACE <$> groups) = join SPACE words.
Proof.
  intros Hpos Hwords Hshort.
  enough (∃ groups,
    (∀ fuel, (length (join SPACE words) < fuel)%nat →
       chunkText fuel (join SPACE words) maxLength
       = Some (join SPACE <$> groups))
    ∧ concat groups = words ∧ Forall (λ g, g ≠ []) groups)
    as (groups & Hchunks & Hcat & Hgroups).
  { exists groups. repeat split; try done. by rewrite join_groups, Hcat. }
  unfold chunkText. set (text := join SPACE words).
  destruct text as [|x text'] eqn:Htext.
  - exists []. split; [done|]. split; [|done].
    destruct words as [|w words]; [done|]. exfalso.
    apply Forall_cons in Hwords as [[Hw _] _]. subst text.
    destruct words; [cbn in Htext; done|].
    rewrite join_cons_cons in Htext. by destruct w.
  - cbn [nonEmpty negb orb].
    replace (len (x :: text') =? 0)%Z with false
      by (symmetry; apply Z.eqb_neq; unfold len; cbn; lia).
    destruct (len (x :: text') <=? maxLength)%Z eqn:Hfit.
    + exists [words]. cbn [fmap list_fmap]. fold text. rewrite Htext.
      split; [done|]. split; [by cbn; rewrite app_nil_r|].
      constructor; [|done]. intros ->. by subst text.
    + rewrite <- Htext. subst text.
      destruct (chunkLoop_words maxLength Hpos (S (length (join SPACE words)))
                  words [] Hwords Hshort) as (groups & Hout & Hcat & Hgroups);
        [lia|].
      exists groups. split; [|done]. intros fuel Hfuel.
      eapply chunkLoop_fuel_le; [|exact Hout]. lia.
Qed.

Lemma X3_chunkText_whole_words_witness :
  (0 < 9)%Z
  ∧ Forall inkedWord [str "the"; str "quick"; str "brown"; str "fox"]
  ∧ Forall (λ w, (len w ≤ 9)%Z) [str "the"; str "quick"; str "brown"; str "fox"]
  ∧ chunkText 20 (str "the quick brown fox") 9
    = Some [str "the"; str "quick"; str "brown fox"].
Proof.
  assert (0 < 9)%Z as Hpos by lia.
  assert (Forall inkedWord [str "the"; str "quick"; str "brown"; str "fox"])
    as Hwords by compute_done.
  assert (Forall (λ w, (len w ≤ 9)%Z)
            [str "the"; str "quick"; str "brown"; str "fox"]) as Hshort
    by compute_done.
  destruct (X3_chunkText_whole_words _ 9 Hpos Hwords Hshort)
    as (groups & Hchunks & _).
  do 3 (split; [assumption|]).
  change (str "the quick brown fox")
    with (join SPACE [str "the"; str "quick"; str "brown"; str "fox"]).
  rewrite (Hchunks 20%nat) by (vm_compute; lia).
  rewrite <- (Hchunks 30%nat) by (vm_compute; lia). reflexivity.
Defined.

(** X4. A text without any whitespace that is longer than a positive
    [maxLength] is cut every [maxLength] characters: the chunks put end to
    end are the text, and every chunk but the last has exactly [maxLength]
    characters. *)
Theorem X4_chunkText_hard_split text maxLength :
  (0 < maxLength)%Z → Forall (λ c, isWhiteSpace c = false) text →
  ∃ chunks,
    (∀ fuel, (length text < fuel)%nat →
             chunkText fuel text maxLength = Some chunks)
    ∧ concat chunks = text
    ∧ ∀ i c, chunks !! i = Some c → (S i < length chunks)%nat →
             len c = maxLength.
Proof.
  intros Hpos Hink. unfold chunkText.
  destruct text as [|x text]; [by exists []|].
  cbn [nonEmpty negb orb].
  replace (len (x :: text) =? 0)%Z with false
    by (symmetry; apply Z.eqb_neq; unfold len; cbn; lia).
  destruct (len (x :: text) <=? maxLength)%Z eqn:Hfit.
  - exists [x :: text]. split; [done|]. split; [by cbn; rewrite app_nil_r|].
    intros i c _ Hi. cbn in Hi. lia.
  - destruct (chunkLoop_hard_split maxLength Hpos (S (length (x :: text)))
                (x :: text) [] Hink) as (out & Hout & Hcat & Hlen); [lia|].
    exists out. split; [|done]. intros fuel Hfuel.
    eapply chunkLoop_fuel_le; [|exact Hout]. lia.
Qed.

Lemma X4_chunkText_hard_split_witness :
  (0 < 4)%Z
  ∧ Forall (λ c, isWhiteSpace c = false) (str "abcdefghij")
  ∧ chunkText 11 (str "abcdefghij") 4
    = Some [str "abcd"; str "efgh"; str "ij"].
Proof.
  assert (0 < 4)%Z as Hpos by lia.
  assert (Forall (λ c, isWhiteSpace c = false) (str "abcdefghij")) as Hink
    by compute_done.
  destruct (X4_chunkText_hard_split _ 4 Hpos Hink) as (chunks & Hchunks & _).
  do 2 (split; [assumption|]).
  rewrite (Hchunks 11%nat) by (vm_compute; lia).
  rewrite <- (Hchunks 12%nat) by (vm_compute; lia). reflexivity.
Defined.

(** X5. With a [maxLength] of zero or less, [chunkText] never returns on a
    non-empty text that has no leading or trailing whitespace: each turn of
    its loop pushes an empty chunk and leaves the text as it was. *)
Theorem X5_chunkText_needs_positive_bound text maxLength fuel :
  (maxLength ≤ 0)%Z → text ≠ [] → trim text = text →
  chunkText fuel text maxLength = None.
Proof.
  intros Hmax Hne Htrim. unfold chunkText.
  destruct text as [|x text]; [done|]. cbn [nonEmpty negb orb].
  replace (len (x :: text) =? 0)%Z with false
    by (symmetry; apply Z.eqb_neq; unfold len; cbn; lia).
  replace (len (x :: text) <=? maxLength)%Z with false
    by (symmetry; apply Z.leb_gt; unfold len; cbn [length]; lia).
  by apply chunkLoop_stuck.
Qed.

Lemma X5_chunkText_needs_positive_bound_witness :
  (0 ≤ 0)%Z ∧ str "story" ≠ [] ∧ trim (str "story") = str "story"
  ∧ chunkText 1000 (str "story") 0 = None.
Proof.
  assert (0 ≤ 0)%Z as Hmax by lia.
  assert (str "story" ≠ []) as Hne by done.
  assert (trim (str "story") = str "story") as Htrim by reflexivity.
  do 3 (split; [assumption|]).
  exact (X5_chunkText_needs_positive_bound _ 0 1000 Hmax Hne Htrim).
Defined.

(** ** Further properties of the decoder *)

Section DecoderFurther.

Implicit Types (row cur f : jsstring) (fs headers values : list jsstring)
  (obj story : jsobject) (key : jsstring).

Lemma delimited_snoc fs f : delimited (fs ++ [f]) = delimited fs ++ f ++ [COMMA].
Proof.
  unfold delimited. rewrite bind_app. cbn. by rewrite app_nil_r.
Qed.

Lemma join_snoc_delimited fs cur : join COMMA (fs ++ [cur]) = delimited fs ++ cur.
Proof.
  induction fs as [|f fs IH]; [done|].
  change ((f :: fs) ++ [cur]) with (f :: (fs ++ [cur])).
  destruct (fs ++ [cur]) as [|x l] eqn:Hl; [by destruct fs|].
  rewrite join_cons_cons, IH. unfold delimited. cbn.
  by rewrite <- !app_assoc.
Qed.

(** Outside quotes the splitter only moves the text it reads into the
    fields. *)
Lemma fieldLoop_no_quote row : ∀ fs cur,
  QUOTE ∉ row →
  let st := fieldLoop row (mkFieldState fs cur false) in
  delimited (fields st) ++ currentField st = delimited fs ++ cur ++ row
  ∧ length (fields st) = (length fs + commas row)%nat.
Proof.
  induction row as [|c row IH]; intros fs cur Hq.
  - cbn. rewrite app_nil_r. split; [done|]. unfold commas. cbn. lia.
  - apply not_elem_of_cons in Hq as [Hc Hq].
    destruct (decide (c = COMMA)) as [->|Hcc].
    + rewrite fieldLoop_comma. destruct (IH (fs ++ [cur]) [] Hq) as [Htext Hlen].
      cbv zeta in *. rewrite Htext, Hlen, delimited_snoc, length_app.
      unfold commas. rewrite filter_cons_True by done. cbn [length app].
      split; [by rewrite <- !app_assoc|lia].
    + rewrite fieldLoop_cons. cbn [fieldStep fInQuotes fields currentField].
      rewrite (proj2 (N.eqb_neq c QUOTE)), (proj2 (N.eqb_neq c COMMA)) by done.
      destruct (IH fs (cur ++ [c]) Hq) as [Htext Hlen].
      cbv zeta in *. rewrite Htext, Hlen.
      unfold commas. rewrite filter_cons_False by done.
      split; [by rewrite <- !app_assoc|done].
Qed.

(** *** The names and kinds of the properties of a record *)

Lemma setProp_is_Some obj key key' v :
  is_Some (setProp obj key v !! key')
  ↔ is_Some (obj !! key') ∨ (key' = key ∧ key ≠ str "__proto__").
Proof.
  unfold setProp, jsstring_eqb. case_bool_decide as Hproto.
  - split; [by left|]. intros [H|[_ H]]; done.
  - rewrite lookup_insert. case_decide as Hkey.
    + subst key'. split; [by right|by eauto].
    + split; [by left|]. intros [H|[H _]]; [done|by subst].
Qed.

Lemma assigned_is_Some headers : ∀ i values obj key,
  is_Some (assigned headers i values obj !! key)
  ↔ is_Some (obj !! key) ∨ (key ∈ headers ∧ key ≠ str "__proto__").
Proof.
  induction headers as [|h headers IH]; intros i values obj key.
  - cbn [assigned]. split; [by left|]. intros [H|[H _]]; [done|].
    by apply elem_of_nil in H.
  - cbn [assigned]. rewrite IH, setProp_is_Some, elem_of_cons.
    split.
    + intros [[H|[-> Hp]]|[Hin Hp]]; [by left|right|right]; split; auto.
    + intros [H|[[->|Hin] Hp]]; [by left; left|by left; right|by right].
Qed.

Lemma derived_is_Some obj index key :
  is_Some (derived obj index !! key)
  ↔ is_Some (obj !! key) ∨ derivedKey key = true.
Proof.
  destruct (derivedKey key) eqn:Hder.
  - split; [by right|]. intros _. unfold derivedKey, jsstring_eqb in Hder.
    repeat (apply orb_true_iff in Hder as [Hder|Hder]);
      apply bool_decide_eq_true_1 in Hder; subst key; unfold derived;
      repeat first [ by rewrite lookup_insert_eq
                   | rewrite lookup_insert_ne by key_neq ].
  - rewrite derived_lookup_other by done. split; [by left|].
    by intros [H|H].
Qed.

Lemma storyOf_is_Some headers index rowStr key :
  is_Some (storyOf headers index rowStr !! key)
  ↔ (key ∈ headers ∧ key ≠ str "__proto__") ∨ derivedKey key = true.
Proof.
  unfold storyOf. rewrite derived_is_Some, assigned_is_Some, lookup_empty.
  split.
  - intros [[[? H]|H]|H]; [done|by left|by right].
  - intros [H|H]; [by left; right|by right].
Qed.

Lemma storyOf_kind headers index rowStr key v :
  storyOf headers index rowStr !! key = Some v → valueKind v = keyKind key.
Proof.
  unfold keyKind, storyOf. destruct (derivedKey key) eqn:Hder.
  - unfold derivedKey, jsstring_eqb in *.
    repeat (apply orb_true_iff in Hder as [Hder|Hder]);
      apply bool_decide_eq_true_1 in Hder; subst key; unfold derived;
      repeat first [ rewrite lookup_insert_eq
                   | rewrite lookup_insert_ne by key_neq ];
      by intros [= <-].
  - rewrite derived_lookup_other by done. intros Hv.
    eapply typed_assigned in Hv as [s ->]; [|apply typed_empty].
    replace (jsstring_eqb key (str "isSelected")) with false.
    + unfold coerced. by repeat destruct (_ key).
    + symmetry. unfold derivedKey in Hder.
      repeat (apply orb_false_iff in Hder as [Hder ?]). done.
Qed.

(** *** Values beyond the header *)

Lemma assigned_ext headers : ∀ i values values' obj,
  (∀ j, (j < length headers)%nat →
        orEmpty (values !! (i + j)%nat) = orEmpty (values' !! (i + j)%nat)) →
  assigned headers i values obj = assigned headers i values' obj.
Proof.
  induction headers as [|h headers IH]; intros i values values' obj Hext;
    [done|].
  cbn [assigned]. pose proof (Hext 0%nat ltac:(cbn; lia)) as H0.
  rewrite Nat.add_0_r in H0. rewrite H0. apply IH.
  intros j Hj. replace (S i + j)%nat with (i + S j)%nat by lia.
  apply Hext. cbn. lia.
Qed.

(** *** Line endings *)

Lemma toCRLF_cons c s :
  toCRLF (c :: s) = (if c =? LF then [CR; LF] else [c]) ++ toCRLF s.
Proof. reflexivity. Qed.

Lemma toCRLF_head s : head (toCRLF s) ≠ Some LF.
Proof.
  destruct s as [|c s]; [done|]. rewrite toCRLF_cons.
  destruct (c =? LF) eqn:Hc; [done|]. apply N.eqb_neq in Hc.
  cbn. by intros [= ->].
Qed.

(** Normalising the line endings undoes [toCRLF]. *)
Lemma replaceCRLF_toCRLF s : replaceCRLF (toCRLF s) = s.
Proof.
  induction s as [|c s IH]; [done|]. rewrite toCRLF_cons.
  destruct (c =? LF) eqn:Hc.
  - apply N.eqb_eq in Hc. subst c. cbn [app].
    rewrite replaceCRLF_cons2. cbn. by rewrite IH.
  - cbn [app]. pose proof (toCRLF_head s) as Hhead.
    destruct (toCRLF s) as [|x rest] eqn:Hs.
    + cbn. f_equal. by rewrite <- IH.
    + rewrite replaceCRLF_cons2.
      replace ((c =? CR) && (x =? LF)) with false; [by rewrite IH|].
      symmetry. apply andb_false_iff. right. apply N.eqb_neq.
      intros ->. by apply Hhead.
Qed.

Lemma replaceCRLF_no_CR s : CR ∉ s → replaceCRLF s = s.
Proof.
  induction s as [|x|x y l IHl IHc] using list_ind2; intros Hcr; [done..|].
  apply not_elem_of_cons in Hcr as [Hx Hcr].
  rewrite replaceCRLF_cons2, (proj2 (N.eqb_neq x CR)) by done.
  cbn [andb]. by rewrite IHc.
Qed.

Lemma replaceCRLF_app_cons a c b :
  c ≠ LF → c ≠ CR →
  replaceCRLF (a ++ c :: b) = replaceCRLF a ++ c :: replaceCRLF b.
Proof.
  intros Hlf Hcr.
  assert (replaceCRLF (c :: b) = c :: replaceCRLF b) as Hc.
  { destruct b as [|y b]; [done|]. rewrite replaceCRLF_cons2.
    by rewrite (proj2 (N.eqb_neq c CR)). }
  induction a as [|x|x y l IHl IHc] using list_ind2.
  - done.
  - cbn [app]. rewrite replaceCRLF_cons2, (proj2 (N.eqb_neq c LF)) by done.
    by rewrite andb_false_r, Hc.
  - change ((x :: y :: l) ++ c :: b) with (x :: y :: (l ++ c :: b)).
    rewrite !replaceCRLF_cons2. destruct ((x =? CR) && (y =? LF)).
    + by rewrite IHl.
    + change (y :: l ++ c :: b) with ((y :: l) ++ c :: b). by rewrite IHc.
Qed.

End DecoderFurther.

Lemma sampleOne_decoded : parseCSV sampleOne = Some [sampleStory].
Proof. vm_compute. reflexivity. Qed.

(** X6. On a row without any quote character the field splitter is the
    plain split at commas: the fields joined by commas are the row again,
    and there is one more field than the row has commas. *)
Theorem X6_parseCsvRow_plain_split row :
  QUOTE ∉ row →
  join COMMA (parseCsvRow row) = row
  ∧ length (parseCsvRow row) = S (commas row).
Proof.
  intros Hq. destruct (fieldLoop_no_quote row [] [] Hq) as [Htext Hlen].
  cbv zeta in *. unfold parseCsvRow, fieldInit.
  rewrite join_snoc_delimited, Htext, length_app, Hlen. cbn. split; [done|lia].
Qed.

Lemma X6_parseCsvRow_plain_split_witness :
  (QUOTE ∉ str " a,,b c, ")
  ∧ parseCsvRow (str " a,,b c, ") = [str " a"; []; str "b c"; str " "]
  ∧ join COMMA (parseCsvRow (str " a,,b c, ")) = str " a,,b c, ".
Proof.
  assert (QUOTE ∉ str " a,,b c, ") as Hq by compute_done.
  split; [exact Hq|]. split; [reflexivity|].
  exact (proj1 (X6_parseCsvRow_plain_split _ Hq)).
Defined.

(** X7. Every record of a decoded batch has the same property names: the
    header names, except [__proto__], and the five derived names. *)
Theorem X7_records_share_schema data stories story key :
  parseCSV data = Some stories → story ∈ stories →
  is_Some (story !! key)
  ↔ (key ∈ trim <$> parseCsvRow (default [] (splitRows (normalize data) !! 0%nat))
     ∧ key ≠ str "__proto__")
    ∨ derivedKey key = true.
Proof.
  rewrite parseCSV_stages. intros [= <-] Hin.
  apply list_elem_of_filter in Hin as [_ Hin]. unfold built in Hin.
  apply elem_of_lookup_imap_1 in Hin as (index & rowStr & -> & _).
  apply storyOf_is_Some.
Qed.

Lemma X7_records_share_schema_witness :
  parseCSV sampleOne = Some [sampleStory] ∧ sampleStory ∈ [sampleStory]
  ∧ is_Some (sampleStory !! str "author")
  ∧ ¬ is_Some (sampleStory !! str "title").
Proof.
  assert (sampleStory ∈ [sampleStory]) as Hin by (by left).
  split; [exact sampleOne_decoded|]. split; [exact Hin|]. split.
  - apply (X7_records_share_schema _ _ _ _ sampleOne_decoded Hin). left.
    split; [compute_done|key_neq].
  - intros Hsome.
    apply (X7_records_share_schema _ _ _ _ sampleOne_decoded Hin) in Hsome
      as [[Hhdr _]|Hder]; [|discriminate Hder].
    revert Hhdr. compute_done.
Defined.

(** X8. In a decoded record the kind of every value follows from the name
    of its property: [score] and [num_comments] hold numbers, [is_self],
    [over_18] and [isSelected] hold booleans, every other property holds a
    string. *)
Theorem X8_values_typed_by_name data stories story key v :
  parseCSV data = Some stories → story ∈ stories →
  story !! key = Some v → valueKind v = keyKind key.
Proof.
  rewrite parseCSV_stages. intros [= <-] Hin.
  apply list_elem_of_filter in Hin as [_ Hin]. unfold built in Hin.
  apply elem_of_lookup_imap_1 in Hin as (index & rowStr & -> & _).
  apply storyOf_kind.
Qed.

Lemma X8_values_typed_by_name_witness :
  parseCSV sampleOne = Some [sampleStory] ∧ sampleStory ∈ [sampleStory]
  ∧ sampleStory !! str "isSelected" = Some (VBool false)
  ∧ valueKind (VBool false) = keyKind (str "isSelected").
Proof.
  assert (sampleStory ∈ [sampleStory]) as Hin by (by left).
  assert (sampleStory !! str "isSelected" = Some (VBool false)) as Hv
    by (vm_compute; reflexivity).
  do 3 (split; [first [exact sampleOne_decoded | assumption]|]).
  exact (X8_values_typed_by_name _ _ _ _ _ sampleOne_decoded Hin Hv).
Defined.

(** X9. A record depends only on the values under the header columns, a
    missing value counting as the empty string: two data rows that agree
    there build the same record, whatever further values either of them
    has. *)
Theorem X9_values_beyond_header_ignored headers row1 row2 index :
  (∀ j, (j < length headers)%nat →
     default [] (parseCsvRow (trim row1) !! j)
     = default [] (parseCsvRow (trim row2) !! j)) →
  buildStory headers row1 index = buildStory headers row2 index.
Proof.
  intros Hsame. rewrite !buildStory_Some. do 2 f_equal.
  apply assigned_ext. intros j Hj. cbn [Nat.add].
  rewrite !orEmpty_default. unfold rowValues.
  rewrite !padValues_lookup. by apply Hsame.
Qed.

Lemma X9_values_beyond_header_ignored_witness :
  (∀ j, (j < length [str "a"; str "b"])%nat →
     default [] (parseCsvRow (trim (str "x,,y,z")) !! j)
     = default [] (parseCsvRow (trim (str "x")) !! j))
  ∧ buildStory [str "a"; str "b"] (str "x,,y,z") 0
    = buildStory [str "a"; str "b"] (str "x") 0.
Proof.
  assert (∀ j, (j < length [str "a"; str "b"])%nat →
     default [] (parseCsvRow (trim (str "x,,y,z")) !! j)
     = default [] (parseCsvRow (trim (str "x")) !! j)) as Hsame.
  { intros [|[|j]] Hj; [reflexivity..|cbn in Hj; lia]. }
  split; [exact Hsame|].
  exact (X9_values_beyond_header_ignored _ _ _ 0 Hsame).
Defined.

(** X10. Line endings do not matter: a text without a carriage return
    followed by a newline decodes to the same records when each of its
    newlines, those inside quoted fields included, is written as carriage
    return and newline. *)
Theorem X10_crlf_decodes_as_lf s :
  replaceCRLF s = s → parseCSV (toCRLF s) = parseCSV s.
Proof.
  intros Hs. rewrite !parseCSV_stages. unfold normalize.
  by rewrite replaceCRLF_toCRLF, Hs.
Qed.

Lemma X10_crlf_decodes_as_lf_witness :
  replaceCRLF sampleOne = sampleOne
  ∧ toCRLF sampleOne
    = str "author,rewritten_story" ++ [CR; LF] ++ str "bob,hello"
  ∧ parseCSV (toCRLF sampleOne) = parseCSV sampleOne.
Proof.
  assert (replaceCRLF sampleOne = sampleOne) as Hs by reflexivity.
  split; [exact Hs|]. split; [reflexivity|].
  exact (X10_crlf_decodes_as_lf _ Hs).
Defined.

(** X11. A lone quote character in the first line swallows the whole
    input: when the only quote of the input stands before the first
    newline, everything is one row and the decoder returns no record. *)
Theorem X11_lone_quote_in_header a b :
  QUOTE ∉ a → LF ∉ a → QUOTE ∉ b →
  (length (splitRows (normalize (a ++ QUOTE :: b))) ≤ 1)%nat
  ∧ parseCSV (a ++ QUOTE :: b) = Some [].
Proof.
  intros Hqa Hlfa Hqb.
  assert (length (splitRows (normalize (a ++ QUOTE :: b))) ≤ 1)%nat as Hlen.
  { unfold normalize. rewrite replaceCRLF_app_cons by done. unfold trim.
    rewrite trimStart_app_nonws, trimEnd_app_nonws by done.
    set (x := trimStart (replaceCRLF a)). set (y := trimEnd (replaceCRLF b)).
    assert (QUOTE ∉ x) as Hqx
      by (intros Hin; by apply Hqa, elem_of_replaceCRLF, elem_of_trimStart).
    assert (LF ∉ x) as Hlfx
      by (intros Hin; by apply Hlfa, elem_of_replaceCRLF, elem_of_trimStart).
    assert (QUOTE ∉ y) as Hqy
      by (intros Hin; by apply Hqb, elem_of_replaceCRLF, elem_of_trimEnd).
    unfold splitRows, rowInit.
    rewrite rowLoop_app, rowLoop_plain by (done || by left).
    rewrite rowLoop_cons, rowStep_quote. cbn [rows currentRow rInQuotes negb].
    rewrite rowLoop_plain by (done || by right). cbn [rows currentRow].
    apply pushRow_length. }
  split; [exact Hlen|]. unfold parseCSV.
  by rewrite (proj2 (Nat.ltb_lt _ 2)) by lia.
Qed.

Lemma X11_lone_quote_in_header_witness :
  (QUOTE ∉ str "title,rewritten") ∧ (LF ∉ str "title,rewritten")
  ∧ (QUOTE ∉ str "_story" ++ [LF] ++ str "t1,a long story" ++ [LF] ++ str "t2,another")
  ∧ parseCSV (str "title,rewritten" ++ QUOTE
              :: str "_story" ++ [LF] ++ str "t1,a long story" ++ [LF]
                 ++ str "t2,another")
    = Some [].
Proof.
  assert (QUOTE ∉ str "title,rewritten") as Hqa by compute_done.
  assert (LF ∉ str "title,rewritten") as Hlfa by compute_done.
  assert (QUOTE ∉ str "_story" ++ [LF] ++ str "t1,a long story" ++ [LF]
                   ++ str "t2,another") as Hqb by compute_done.
  do 3 (split; [assumption|]).
  exact (proj2 (X11_lone_quote_in_header _ _ Hqa Hlfa Hqb)).
Defined.

(** ** The story list *)

Section StoryList.

Lemma filter_andb {A} (p q : A → bool) (l : list A) :
  filter (λ x, p x && q x = true) l
  = filter (λ x, q x = true) (filter (λ x, p x = true) l).
Proof.
  induction l as [|x l IH]; [done|].
  rewrite !filter_cons. destruct (p x) eqn:Hp; cbn [andb].
  - rewrite (decide_True (P := true = true)) by done.
    rewrite filter_cons. destruct (decide (q x = true)); by rewrite IH.
  - rewrite (decide_False (P := false = true)) by done.
    rewrite (decide_False (P := false = true)) by done. exact IH.
Qed.

Lemma filter_none {A} (P : A → Prop) `{!∀ x, Decision (P x)} (l : list A) :
  (∀ x, x ∈ l → ¬ P x) → filter P l = [].
Proof.
  induction l as [|x l IH]; intros Hl; [done|].
  rewrite filter_cons_False by (apply Hl; by left).
  apply IH. intros y Hy. apply Hl. by right.
Qed.

(** Replacing one element of a list in which nothing passes the filter. *)
Lemma filter_insert_only {A} (P : A → Prop) `{!∀ x, Decision (P x)}
    (l : list A) i x y :
  l !! i = Some x → (∀ z, z ∈ l → ¬ P z) →
  filter P (<[i := y]> l) = if decide (P y) then [y] else [].
Proof.
  intros Hi Hl. rewrite insert_take_drop by (by eapply lookup_lt_Some).
  rewrite <- (take_drop_middle l i x Hi) in Hl.
  rewrite filter_app, filter_cons.
  rewrite (filter_none P (take i l)), (filter_none P (drop (S i) l)).
  - by destruct (decide (P y)).
  - intros z Hz. apply Hl. apply elem_of_app. right. by right.
  - intros z Hz. apply Hl. apply elem_of_app. by left.
Qed.

Lemma hasId_true (storyId : jsstring) (s : jsobject) :
  hasId storyId s = true ↔ s !! str "id" = Some (VStr storyId).
Proof.
  unfold hasId, jsstring_eqb. destruct (s !! str "id") as [[id|n|b]|]; split;
    try done.
  - intros ->%bool_decide_eq_true_1. done.
  - intros [= ->]. by apply bool_decide_eq_true_2.
Qed.

(** With distinct ids an update aimed at an id changes one position. *)
Lemma fmap_hasId_insert (f : jsobject → jsobject) (stories : list jsobject)
    (i : nat) (s : jsobject) (storyId : jsstring) :
  NoDup (idOf <$> stories) → stories !! i = Some s →
  s !! str "id" = Some (VStr storyId) →
  (λ t, if hasId storyId t then f t else t) <$> stories = <[i := f s]> stories.
Proof.
  intros Hnd Hi Hid. apply list_eq. intros j. rewrite list_lookup_fmap.
  destruct (decide (i = j)) as [<-|Hne].
  - rewrite list_lookup_insert_eq by (by eapply lookup_lt_Some).
    rewrite Hi. cbn. by rewrite (proj2 (hasId_true _ _) Hid).
  - rewrite list_lookup_insert_ne by done.
    destruct (stories !! j) as [t|] eqn:Hj; [|done]. cbn.
    destruct (hasId storyId t) eqn:Ht; [|done]. exfalso. apply Hne.
    apply hasId_true in Ht.
    eapply (NoDup_lookup _ _ _ (Some (VStr storyId)) Hnd);
      rewrite list_lookup_fmap; [rewrite Hi|rewrite Hj]; cbn;
      unfold idOf; by f_equal.
Qed.

Lemma stateKey_false (key : jsstring) :
  stateKey key = false →
  key ≠ str "isSelected" ∧ key ≠ str "voiceName" ∧ key ≠ str "audioData"
  ∧ key ≠ str "coverAudioData" ∧ key ≠ str "narratorGender"
  ∧ key ≠ str "status" ∧ key ≠ str "errorMessage".
Proof.
  unfold stateKey, jsstring_eqb. intros H.
  repeat (apply orb_false_iff in H as [H ?]).
  repeat match goal with
  | Hb : bool_decide _ = false |- _ => apply bool_decide_eq_false_1 in Hb
  end.
  done.
Qed.

(** One update: the list keeps its length and every record its other
    properties. *)
Lemma setStories_other (u : update) (prev : list jsobject) (i : nat)
    (key : jsstring) :
  stateKey key = false →
  (setStories u prev !! i) ≫= (.!! key) = (prev !! i) ≫= (.!! key).
Proof.
  intros (H1 & H2 & H3 & H4 & H5 & H6 & H7)%stateKey_false.
  destruct u as [sid b|b|sid v|sid|sid a c g v|sid msg]; cbn [setStories];
    unfold handleSelectStory, handleSelectAll, setVoice, setLoading, setReady,
      setError;
    rewrite list_lookup_fmap; destruct (prev !! i) as [s|]; try done; cbn;
    try destruct (hasId sid s); try done; unfold readyStory;
    rewrite ?lookup_delete_ne by done; by rewrite !lookup_insert_ne.
Qed.

Lemma length_setStories (u : update) (prev : list jsobject) : length (setStories u prev) = length prev.
Proof.
  destruct u; cbn [setStories];
    unfold handleSelectStory, handleSelectAll, setVoice, setLoading, setReady,
      setError;
    apply length_fmap.
Qed.

Lemma updated_snoc (us : list update) (u : update) (stories : list jsobject) :
  updated (us ++ [u]) stories = setStories u (updated us stories).
Proof. unfold updated. by rewrite foldl_snoc. Qed.

Lemma length_updated (us : list update) (stories : list jsobject) :
  length (updated us stories) = length stories.
Proof.
  induction us as [|u us IH] using rev_ind; [done|].
  by rewrite updated_snoc, length_setStories.
Qed.

Lemma updated_other (us : list update) (stories : list jsobject) (i : nat)
    (key : jsstring) :
  stateKey key = false →
  (updated us stories !! i) ≫= (.!! key) = (stories !! i) ≫= (.!! key).
Proof.
  intros Hkey. induction us as [|u us IH] using rev_ind; [done|].
  by rewrite updated_snoc, setStories_other.
Qed.

(** Every record of an updated list comes from a record of the first list
    with the same other properties. *)
Lemma updated_origin (us : list update) (stories : list jsobject)
    (story : jsobject) :
  story ∈ updated us stories →
  ∃ s0, s0 ∈ stories ∧ ∀ key, stateKey key = false → story !! key = s0 !! key.
Proof.
  intros (i & Hi)%list_elem_of_lookup_1.
  assert (i < length stories)%nat as Hlt
    by (rewrite <- (length_updated us); by eapply lookup_lt_Some).
  apply lookup_lt_is_Some_2 in Hlt as [s0 Hs0]. exists s0.
  split; [by eapply list_elem_of_lookup_2|]. intros key Hkey.
  pose proof (updated_other us stories i key Hkey) as Heq.
  by rewrite Hi, Hs0 in Heq.
Qed.

(** The record of a decoded batch. *)
Lemma decoded_elem (data : jsstring) (stories : list jsobject)
    (story : jsobject) :
  parseCSV data = Some stories → story ∈ stories →
  bodyLongerThanOne story
  ∧ ∃ index rowStr,
      story = storyOf (headersOf (splitRows (normalize data))) index rowStr.
Proof.
  rewrite parseCSV_stages. intros [= <-] Hin.
  apply list_elem_of_filter in Hin as [Hbody Hin]. split; [done|].
  unfold built in Hin.
  apply elem_of_lookup_imap_1 in Hin as (index & rowStr & -> & _). eauto.
Qed.

Lemma storyOf_initial (headers : list jsstring) (index : nat)
    (rowStr : jsstring) :
  ∃ id, storyOf headers index rowStr !! str "id" = Some (VStr id)
    ∧ storyOf headers index rowStr !! str "status" = Some (VStr (str "idle"))
    ∧ storyOf headers index rowStr !! str "isSelected" = Some (VBool false)
    ∧ storyOf headers index rowStr !! str "audioFileName"
      = Some (VStr (id ++ str "_story.wav"))
    ∧ storyOf headers index rowStr !! str "coverAudioFileName"
      = Some (VStr (id ++ str "_cover.wav")).
Proof.
  unfold storyOf. set (obj := assigned _ _ _ _). eexists. unfold derived.
  repeat split;
    repeat first [ apply lookup_insert_eq
                 | rewrite lookup_insert_ne by key_neq ].
Qed.

Lemma decoded_unselected_idle (data : jsstring) (stories : list jsobject)
    (story : jsobject) :
  parseCSV data = Some stories → story ∈ stories →
  isSelected story = false ∧ generatable story = true
  ∧ statusIs (str "ready") story = false.
Proof.
  intros Hparse Hin.
  destruct (decoded_elem _ _ _ Hparse Hin) as (_ & index & rowStr & ->).
  destruct (storyOf_initial (headersOf (splitRows (normalize data))) index rowStr)
    as (id & _ & Hstatus & Hsel & _).
  unfold isSelected, generatable, statusIs. by rewrite Hstatus, Hsel.
Qed.

Lemma decoded_ids_NoDup (data : jsstring) (stories : list jsobject) :
  parseCSV data = Some stories → NoDup (idOf <$> stories).
Proof.
  rewrite parseCSV_stages. intros [= <-].
  apply NoDup_fmap_filter, built_ids_NoDup.
Qed.

Lemma isGenerateDisabled_nil (stories : list jsobject) :
  isGenerateDisabled stories = true ↔ storiesToGenerate stories = [].
Proof.
  unfold storiesToGenerate, isGenerateDisabled, generatableSelectedCount,
    generatableAllCount, selectedCount.
  rewrite filter_andb. cbv zeta.
  destruct (0 <? length (filter _ stories))%nat;
    rewrite Nat.eqb_eq; (split; [apply nil_length_inv | by intros ->]).
Qed.

Lemma isSelected_insert (selected : bool) (s : jsobject) :
  isSelected (<[str "isSelected" := VBool selected]> s) = selected.
Proof. unfold isSelected. by rewrite lookup_insert_eq. Qed.

Lemma generatable_insert (key : jsstring) (v : value) (s : jsobject) :
  key ≠ str "status" → generatable (<[key := v]> s) = generatable s.
Proof.
  intros Hne. unfold generatable, statusIs. by rewrite lookup_insert_ne.
Qed.

(** The three file names of a story differ. *)
Lemma file_names_distinct (id : jsstring) :
  NoDup [id ++ str "_story.wav"; id ++ str "_cover.wav";
         id ++ str "_transcript.txt"].
Proof.
  repeat (apply NoDup_cons; split); [| |by apply not_elem_of_nil|apply NoDup_nil_2].
  - rewrite !elem_of_cons, elem_of_nil.
    intros [H|[H|[]]]; apply app_inv_head in H; discriminate H.
  - rewrite !elem_of_cons, elem_of_nil.
    intros [H|[]]; apply app_inv_head in H; discriminate H.
Qed.

Lemma nonEmpty_app_cons (a : jsstring) c b : nonEmpty (a ++ c :: b) = true.
Proof. by destruct a. Qed.

End StoryList.

(** X12. The flag [isGenerateDisabled] is set exactly when
    [handleGenerate] would find no story to process, and the number of
    stories it processes is the count the flag is computed from. The
    Generate button, which is also disabled while a run is going on, is
    disabled exactly when a run is going on or [handleGenerate] would find
    no story to process. *)
Theorem X12_generate_disabled_iff_nothing_to_do (isGenerating : bool)
    (stories : list jsobject) :
  length (storiesToGenerate stories)
  = (if (0 <? selectedCount stories)%nat then generatableSelectedCount stories
     else generatableAllCount stories)
  ∧ (isGenerateDisabled stories = true ↔ storiesToGenerate stories = [])
  ∧ (generateDisabled isGenerating (isGenerateDisabled stories) = true
     ↔ isGenerating = true ∨ storiesToGenerate stories = []).
Proof.
  split; [|split; [apply isGenerateDisabled_nil|]].
  - unfold storiesToGenerate, generatableSelectedCount, generatableAllCount,
      selectedCount.
    rewrite filter_andb. cbv zeta.
    by destruct (0 <? length (filter _ stories))%nat.
  - unfold generateDisabled.
    by rewrite orb_true_iff, isGenerateDisabled_nil.
Qed.

(** X13. [handleSelectAll] keeps the number of stories, selects all of them
    or none, so that [allSelected] holds afterwards exactly when all were
    selected and the list is not empty, and leaves the number of stories
    that can be generated as it was. *)
Theorem X13_select_all (selected : bool) (stories : list jsobject) :
  length (handleSelectAll selected stories) = length stories
  ∧ selectedCount (handleSelectAll selected stories)
    = (if selected then length stories else 0%nat)
  ∧ allSelected (handleSelectAll selected stories)
    = selected && (0 <? length stories)%nat
  ∧ generatableAllCount (handleSelectAll selected stories)
    = generatableAllCount stories.
Proof.
  assert (selectedCount (handleSelectAll selected stories)
          = if selected then length stories else 0%nat) as Hcount.
  { unfold selectedCount, handleSelectAll.
    induction stories as [|s stories IH]; [by destruct selected|].
    rewrite fmap_cons, filter_cons, isSelected_insert.
    destruct selected.
    - rewrite decide_True by done. cbn [length]. by rewrite IH.
    - by rewrite decide_False by done. }
  split; [apply length_fmap|]. split; [exact Hcount|]. split.
  - unfold allSelected. rewrite Hcount.
    unfold handleSelectAll. rewrite length_fmap.
    destruct selected; cbn [andb].
    + by rewrite Nat.eqb_refl, andb_true_r.
    + by destruct stories.
  - unfold generatableAllCount, handleSelectAll. clear Hcount.
    induction stories as [|s stories IH]; [done|].
    rewrite fmap_cons, !filter_cons, generatable_insert by key_neq.
    destruct (decide (generatable s = true)); cbn [length]; by rewrite IH.
Qed.

(** X14. In a list whose ids are distinct [handleSelectStory] changes one
    record, the one with the given id, and only its [isSelected]. *)
Theorem X14_select_story_changes_one (stories : list jsobject) (i : nat)
    (s : jsobject) (storyId : jsstring) (selected : bool) :
  NoDup (idOf <$> stories) → stories !! i = Some s →
  s !! str "id" = Some (VStr storyId) →
  handleSelectStory storyId selected stories
  = <[i := <[str "isSelected" := VBool selected]> s]> stories.
Proof. intros Hnd Hi Hid. unfold handleSelectStory. by apply fmap_hasId_insert. Qed.

Lemma X14_select_story_changes_one_witness :
  NoDup (idOf <$> sampleList)
  ∧ handleSelectStory (str "bob-1") true sampleList
    = [ {[ str "id" := VStr (str "ann-0") ]};
        <[str "isSelected" := VBool true]> {[ str "id" := VStr (str "bob-1") ]} ].
Proof.
  assert (NoDup (idOf <$> sampleList)) as Hnd by compute_done.
  split; [exact Hnd|].
  exact (X14_select_story_changes_one sampleList 1
           {[ str "id" := VStr (str "bob-1") ]} (str "bob-1") true
           Hnd eq_refl eq_refl).
Defined.

(** X15. Right after decoding nothing is selected, every story is waiting
    to be generated and none can be exported; the flag [isGenerateDisabled]
    is set only when the batch is empty, and the Generate button is
    disabled only when the batch is empty or a run is going on. *)
Theorem X15_decoded_batch_state (data : jsstring) (stories : list jsobject)
    (isGenerating : bool) :
  parseCSV data = Some stories →
  selectedCount stories = 0%nat ∧ allSelected stories = false
  ∧ storiesToGenerate stories = stories ∧ selectedReady stories = []
  ∧ (isGenerateDisabled stories = true ↔ stories = [])
  ∧ (generateDisabled isGenerating (isGenerateDisabled stories) = true
     ↔ isGenerating = true ∨ stories = []).
Proof.
  intros Hparse.
  assert (filter (λ s, isSelected s = true) stories = []) as Hsel.
  { apply filter_none. intros s Hs.
    destruct (decoded_unselected_idle _ _ _ Hparse Hs) as (-> & _). done. }
  assert (storiesToGenerate stories = stories) as Hgen.
  { unfold storiesToGenerate. rewrite Hsel. cbn. apply filter_all.
    apply Forall_forall. intros s Hs.
    by destruct (decoded_unselected_idle _ _ _ Hparse Hs) as (_ & -> & _). }
  split; [unfold selectedCount; by rewrite Hsel|]. split.
  { unfold allSelected, selectedCount. rewrite Hsel. by destruct stories. }
  split; [exact Hgen|]. split.
  { apply filter_none. intros s Hs.
    destruct (decoded_unselected_idle _ _ _ Hparse Hs) as (-> & _). done. }
  split; [by rewrite isGenerateDisabled_nil, Hgen|].
  unfold generateDisabled.
  by rewrite orb_true_iff, isGenerateDisabled_nil, Hgen.
Qed.

Lemma X15_decoded_batch_state_witness :
  parseCSV sampleOne = Some [sampleStory]
  ∧ storiesToGenerate [sampleStory] = [sampleStory]
  ∧ selectedReady [sampleStory] = []
  ∧ (generateDisabled true (isGenerateDisabled [sampleStory]) = true
     ↔ true = true ∨ [sampleStory] = []).
Proof.
  split; [exact sampleOne_decoded|].
  destruct (X15_decoded_batch_state _ _ true sampleOne_decoded)
    as (_ & _ & Hgen & Hready & _ & Hbutton).
  split; [exact Hgen|]. split; [exact Hready|exact Hbutton].
Defined.

(** X16. In every list reached from a decoded batch by the updates of
    selection, voice, loading, ready and error, the download of either audio part of
    a story is named by its id, [_story.wav] or [_cover.wav]; the stored
    name and the name the code would fall back to are the same. The
    transcript is named by the id and [_transcript.txt], and the files put
    into the story's folder of the export have distinct names. *)
Theorem X16_file_names_follow_id (data : jsstring) (stories : list jsobject)
    (us : list update) (story : jsobject) (type : audioType) :
  parseCSV data = Some stories → story ∈ updated us stories →
  ∃ id, story !! str "id" = Some (VStr id)
    ∧ downloadFileName story type
      = id ++ str "_" ++ typeName type ++ str ".wav"
    ∧ transcriptFileName story = id ++ str "_transcript.txt"
    ∧ folderFiles story
      = (if condition (story !! str "audioData")
         then [id ++ str "_story.wav"] else [])
        ++ (if condition (story !! str "coverAudioData")
            then [id ++ str "_cover.wav"] else [])
        ++ [id ++ str "_transcript.txt"]
    ∧ NoDup (folderFiles story).
Proof.
  intros Hparse (s0 & Hs0 & Hsame)%updated_origin.
  destruct (decoded_elem _ _ _ Hparse Hs0) as (_ & index & rowStr & ->).
  destruct (storyOf_initial (headersOf (splitRows (normalize data))) index rowStr)
    as (id & Hid & _ & _ & Hstory & Hcover).
  rewrite <- Hsame in Hid, Hstory, Hcover by reflexivity.
  assert (∀ tail c rest, orElse (Some (VStr (id ++ c :: rest))) tail
                         = id ++ c :: rest) as Hname.
  { intros tail c rest. unfold orElse. cbn [truthy toStr].
    by rewrite nonEmpty_app_cons. }
  assert (folderFiles story
      = (if condition (story !! str "audioData")
         then [id ++ str "_story.wav"] else [])
        ++ (if condition (story !! str "coverAudioData")
            then [id ++ str "_cover.wav"] else [])
        ++ [id ++ str "_transcript.txt"]) as Hfiles.
  { unfold folderFiles. rewrite Hid, Hstory, Hcover. cbn [template toStr].
    by rewrite (Hname _ 95 (str "story.wav")), (Hname _ 95 (str "cover.wav")). }
  exists id. split; [exact Hid|]. split.
  { unfold downloadFileName. destruct type; [rewrite Hstory|rewrite Hcover].
    - apply (Hname _ 95 (str "story.wav")).
    - apply (Hname _ 95 (str "cover.wav")). }
  split; [unfold transcriptFileName; by rewrite Hid|].
  split; [exact Hfiles|]. rewrite Hfiles.
  pose proof (file_names_distinct id) as Hnd.
  apply (sublist_NoDup _ _ Hnd).
  destruct (condition _), (condition _); cbn [app]; repeat constructor.
Qed.

Lemma X16_file_names_follow_id_witness :
  parseCSV sampleOne = Some [sampleStory]
  ∧ (readyStory (str "QUJD") [] (str "male") (str "Puck") sampleStory
     ∈ updated [SetReady (str "bob-0") (str "QUJD") [] (str "male") (str "Puck")]
         [sampleStory])
  ∧ ∃ id, readyStory (str "QUJD") [] (str "male") (str "Puck") sampleStory
            !! str "id" = Some (VStr id)
      ∧ downloadFileName
          (readyStory (str "QUJD") [] (str "male") (str "Puck") sampleStory)
          TCover
        = id ++ str "_" ++ typeName TCover ++ str ".wav".
Proof.
  assert (readyStory (str "QUJD") [] (str "male") (str "Puck") sampleStory
     ∈ updated [SetReady (str "bob-0") (str "QUJD") [] (str "male") (str "Puck")]
         [sampleStory]) as Hin.
  { replace (updated _ _)
      with [readyStory (str "QUJD") [] (str "male") (str "Puck") sampleStory]
      by (vm_compute; reflexivity).
    by left. }
  split; [exact sampleOne_decoded|]. split; [exact Hin|].
  destruct (X16_file_names_follow_id _ _ _ _ TCover sampleOne_decoded Hin)
    as (id & Hid & Hname & _).
  exists id. split; [exact Hid|exact Hname].
Defined.

(** X17. The transcript of a story from a table without a [title] column
    starts with [Title: undefined]; it ends with the body text of the
    story, which is longer than one character when trimmed. This holds in
    every list reached from the decoded batch by the updates. *)
Theorem X17_transcript_without_title (data : jsstring)
    (stories : list jsobject) (us : list update) (story : jsobject) :
  parseCSV data = Some stories → story ∈ updated us stories →
  str "title" ∉ headersOf (splitRows (normalize data)) →
  ∃ body, story !! str "rewritten_story" = Some (VStr body)
    ∧ (1 < length (trim body))%nat
    ∧ transcriptText story
      = str "Title: undefined" ++ [LF; LF] ++ str "Cover Text:" ++ [LF]
        ++ template (story !! str "cover_text") ++ [LF; LF] ++ str "---"
        ++ [LF; LF] ++ str "Full Story:" ++ [LF] ++ body.
Proof.
  intros Hparse (s0 & Hs0 & Hsame)%updated_origin Htitle.
  destruct (decoded_elem _ _ _ Hparse Hs0)
    as ((body & Hbody & Hlen) & index & rowStr & ->).
  assert (story !! str "title" = None) as Hnone.
  { rewrite Hsame by reflexivity. apply eq_None_not_Some.
    rewrite storyOf_is_Some. intros [[Hin _]|Hder]; [done|discriminate Hder]. }
  rewrite <- Hsame in Hbody by reflexivity.
  exists body. split; [exact Hbody|]. split; [exact Hlen|].
  unfold transcriptText. by rewrite Hnone, Hbody.
Qed.

Lemma X17_transcript_without_title_witness :
  parseCSV sampleOne = Some [sampleStory]
  ∧ (sampleStory ∈ updated [] [sampleStory])
  ∧ (str "title" ∉ headersOf (splitRows (normalize sampleOne)))
  ∧ ∃ body, sampleStory !! str "rewritten_story" = Some (VStr body)
      ∧ transcriptText sampleStory
        = str "Title: undefined" ++ [LF; LF] ++ str "Cover Text:" ++ [LF]
          ++ template (sampleStory !! str "cover_text") ++ [LF; LF]
          ++ str "---" ++ [LF; LF] ++ str "Full Story:" ++ [LF] ++ body.
Proof.
  assert (sampleStory ∈ updated [] [sampleStory]) as Hin by (by left).
  assert (str "title" ∉ headersOf (splitRows (normalize sampleOne))) as Htitle
    by compute_done.
  split; [exact sampleOne_decoded|]. split; [exact Hin|].
  split; [exact Htitle|].
  destruct (X17_transcript_without_title _ _ _ _ sampleOne_decoded Hin Htitle)
    as (body & Hbody & _ & Htext).
  exists body. split; [exact Hbody|exact Htext].
Defined.

(** X18. The updates of selection, voice, loading, ready and error, in any
    number and order, keep the length of the list and the ids in their
    places, and never change a property other than [isSelected],
    [voiceName], [audioData], [coverAudioData], [narratorGender], [status]
    and [errorMessage]. *)
Theorem X18_updates_keep_other_properties (us : list update)
    (stories : list jsobject) (i : nat) (key : jsstring) :
  stateKey key = false →
  length (updated us stories) = length stories
  ∧ idOf <$> updated us stories = idOf <$> stories
  ∧ (updated us stories !! i) ≫= (.!! key) = (stories !! i) ≫= (.!! key).
Proof.
  intros Hkey. split; [apply length_updated|]. split; [|by apply updated_other].
  apply list_eq. intros j. rewrite !list_lookup_fmap.
  pose proof (updated_other us stories j (str "id") eq_refl) as Hid.
  pose proof (length_updated us stories) as Hlen.
  destruct (updated us stories !! j) as [t|] eqn:Ht,
    (stories !! j) as [t0|] eqn:Ht0; cbn in *.
  - unfold idOf. congruence.
  - apply lookup_lt_Some in Ht. apply lookup_ge_None in Ht0. lia.
  - apply lookup_lt_Some in Ht0. apply lookup_ge_None in Ht. lia.
  - done.
Qed.

Lemma X18_updates_keep_other_properties_witness :
  stateKey (str "id") = false
  ∧ idOf <$> updated [SelectAll true; SetLoading (str "ann-0");
                      SetError (str "ann-0") (str "failed");
                      SetVoice (str "bob-1") (str "Puck")] sampleList
    = idOf <$> sampleList.
Proof.
  split; [reflexivity|].
  exact (proj1 (proj2 (X18_updates_keep_other_properties
                         [SelectAll true; SetLoading (str "ann-0");
                          SetError (str "ann-0") (str "failed");
                          SetVoice (str "bob-1") (str "Puck")]
                         sampleList 0 (str "id") eq_refl))).
Defined.

(** X19. From a decoded batch, selecting one story and then marking it
    ready changes that one record; afterwards it is the only story of the
    export, no story is left for [handleGenerate] and the Generate button
    is disabled. Its folder gets the transcript and one file for each
    audio part that is not empty. *)
Theorem X19_selected_ready_story_exported (data : jsstring)
    (stories : list jsobject) (i : nat) (s : jsobject)
    (storyId storyAudio coverAudio gender voiceName : jsstring) :
  parseCSV data = Some stories → stories !! i = Some s →
  s !! str "id" = Some (VStr storyId) →
  let s' := readyStory storyAudio coverAudio gender voiceName
              (<[str "isSelected" := VBool true]> s) in
  let stories' := setReady storyId storyAudio coverAudio gender voiceName
                    (handleSelectStory storyId true stories) in
  stories' = <[i := s']> stories
  ∧ selectedReady stories' = [s']
  ∧ storiesToGenerate stories' = []
  ∧ isGenerateDisabled stories' = true
  ∧ folderFiles s'
    = (if nonEmpty storyAudio then [storyId ++ str "_story.wav"] else [])
      ++ (if nonEmpty coverAudio then [storyId ++ str "_cover.wav"] else [])
      ++ [storyId ++ str "_transcript.txt"].
Proof.
  intros Hparse Hi Hid s' stories'.
  pose proof (decoded_ids_NoDup _ _ Hparse) as Hnd.
  pose proof (list_elem_of_lookup_2 _ _ _ Hi) as Hin.
  pose proof (lookup_lt_Some _ _ _ Hi) as Hlt.
  set (s1 := <[str "isSelected" := VBool true]> s).
  assert (s1 !! str "id" = Some (VStr storyId)) as Hid1
    by (unfold s1; by rewrite lookup_insert_ne by key_neq).
  assert (stories' = <[i := s']> stories) as Hlist.
  { unfold stories', handleSelectStory, setReady.
    rewrite (fmap_hasId_insert _ stories i s storyId Hnd Hi Hid).
    fold s1.
    rewrite (fmap_hasId_insert _ (<[i := s1]> stories) i s1 storyId).
    - by rewrite list_insert_insert_eq.
    - rewrite list_fmap_insert.
      replace (idOf s1) with (idOf s) by (unfold idOf; congruence).
      rewrite list_insert_id; [done|]. by rewrite list_lookup_fmap, Hi.
    - by apply list_lookup_insert_eq.
    - exact Hid1. }
  assert (isSelected s' = true) as Hsel'.
  { unfold s', readyStory, isSelected.
    rewrite !lookup_insert_ne by key_neq. unfold s1.
    by rewrite lookup_insert_eq. }
  assert (statusIs (str "ready") s' = true) as Hready'.
  { unfold s', readyStory, statusIs. by rewrite lookup_insert_eq. }
  assert (generatable s' = false) as Hgen'.
  { unfold generatable, s', readyStory, statusIs. by rewrite lookup_insert_eq. }
  assert (filter (λ t, isSelected t = true) stories' = [s']) as Hselected.
  { rewrite Hlist, (filter_insert_only _ _ _ _ _ Hi).
    - by rewrite decide_True.
    - intros z Hz.
      destruct (decoded_unselected_idle _ _ _ Hparse Hz) as (-> & _). done. }
  assert (storiesToGenerate stories' = []) as Hnone.
  { unfold storiesToGenerate. rewrite Hselected.
    cbn [length Nat.ltb Nat.leb].
    by rewrite filter_cons_False by (by rewrite Hgen'). }
  split; [exact Hlist|]. split.
  { unfold selectedReady. rewrite Hlist, (filter_insert_only _ _ _ _ _ Hi).
    - rewrite decide_True; [done|]. by rewrite Hsel', Hready'.
    - intros z Hz.
      destruct (decoded_unselected_idle _ _ _ Hparse Hz) as (-> & _). done. }
  split; [exact Hnone|]. split; [by apply isGenerateDisabled_nil|].
  destruct (decoded_elem _ _ _ Hparse Hin) as (_ & index & rowStr & Hs).
  destruct (storyOf_initial (headersOf (splitRows (normalize data))) index rowStr)
    as (id & Hid0 & _ & _ & Hstory & Hcover).
  rewrite <- Hs in Hid0, Hstory, Hcover.
  assert (id = storyId) as -> by congruence.
  unfold folderFiles, s', readyStory.
  repeat first [ rewrite lookup_insert_eq
               | rewrite lookup_insert_ne by key_neq ].
  unfold s1.
  repeat first [ rewrite lookup_insert_eq
               | rewrite lookup_insert_ne by key_neq ].
  rewrite Hid, Hstory, Hcover. unfold orElse, condition.
  cbn [truthy toStr template].
  by repeat destruct (nonEmpty _).
Qed.

Lemma X19_selected_ready_story_exported_witness :
  parseCSV sampleOne = Some [sampleStory]
  ∧ sampleStory !! str "id" = Some (VStr (str "bob-0"))
  ∧ isGenerateDisabled
      (setReady (str "bob-0") (str "QUJD") [] (str "male") (str "Puck")
         (handleSelectStory (str "bob-0") true [sampleStory])) = true
  ∧ folderFiles
      (readyStory (str "QUJD") [] (str "male") (str "Puck")
         (<[str "isSelected" := VBool true]> sampleStory))
    = [str "bob-0_story.wav"; str "bob-0_transcript.txt"].
Proof.
  assert (sampleStory !! str "id" = Some (VStr (str "bob-0"))) as Hid
    by (vm_compute; reflexivity).
  split; [exact sampleOne_decoded|]. split; [exact Hid|].
  destruct (X19_selected_ready_story_exported sampleOne [sampleStory] 0
              sampleStory (str "bob-0") (str "QUJD") [] (str "male")
              (str "Puck") sampleOne_decoded eq_refl Hid)
    as (_ & _ & _ & Hdisabled & Hfiles).
  split; [exact Hdisabled|exact Hfiles].
Defined.

(** X20. A story that came out of the decoder always has a body text, in
    every list reached by the updates, the one to loading included: its play
    button is disabled exactly while the story is loading, and the guard of
    [generateAudioForStory] against a story without content never fires. *)
Theorem X20_decoded_story_has_content (data : jsstring)
    (stories : list jsobject) (us : list update) (story : jsobject) :
  parseCSV data = Some stories → story ∈ updated us stories →
  playDisabled story = statusIs (str "loading") story
  ∧ noContent story = false.
Proof.
  intros Hparse (s0 & Hs0 & Hsame)%updated_origin.
  destruct (decoded_elem _ _ _ Hparse Hs0) as ((body & Hbody & Hlen) & _).
  rewrite <- Hsame in Hbody by reflexivity.
  assert (condition (story !! str "rewritten_story") = true) as Hcond.
  { rewrite Hbody. cbn [condition truthy]. destruct body; [|done].
    rewrite trim_nil in Hlen. cbn in Hlen. lia. }
  unfold playDisabled, noContent. rewrite Hcond. cbn [negb andb].
  by rewrite orb_false_r.
Qed.

Lemma X20_decoded_story_has_content_witness :
  parseCSV sampleOne = Some [sampleStory]
  ∧ (sampleLoading ∈ updated [SetLoading (str "bob-0")] [sampleStory])
  ∧ playDisabled sampleLoading = true
  ∧ noContent sampleLoading = false.
Proof.
  assert (sampleLoading ∈ updated [SetLoading (str "bob-0")] [sampleStory])
    as Hin.
  { unfold updated, setStories, setLoading. cbn [foldl fmap list_fmap].
    replace (hasId (str "bob-0") sampleStory) with true
      by (vm_compute; reflexivity).
    by left. }
  split; [exact sampleOne_decoded|]. split; [exact Hin|].
  destruct (X20_decoded_story_has_content _ _ _ _ sampleOne_decoded Hin)
    as [Hplay Hcontent].
  split; [|exact Hcontent]. rewrite Hplay.
  unfold statusIs, sampleLoading.
  rewrite lookup_delete_ne by key_neq. by rewrite lookup_insert_eq.
Defined.

(** X21. Whenever [handleDownloadSelected] would find a story to export,
    the Download ZIP button is enabled. *)
Theorem X21_export_possible_button_enabled (stories : list jsobject) :
  selectedReady stories ≠ [] →
  downloadZipDisabled (selectedCount stories) = false.
Proof.
  unfold selectedReady, downloadZipDisabled, selectedCount.
  rewrite filter_andb. intros Hne.
  destruct (filter (λ s, isSelected s = true) stories); [done|reflexivity].
Qed.

Lemma X21_export_possible_button_enabled_witness :
  selectedReady [sampleReady] ≠ []
  ∧ downloadZipDisabled (selectedCount [sampleReady]) = false.
Proof.
  assert (selectedReady [sampleReady] ≠ []) as Hne.
  { unfold selectedReady.
    rewrite filter_cons_True by (vm_compute; reflexivity). discriminate. }
  split; [exact Hne|].
  exact (X21_export_possible_button_enabled [sampleReady] Hne).
Defined.
